(** * TextToSpeech: a fluent facade over the Web Speech API

    A shallow embedding of the [TextToSpeech] class
    (src/classes/TextToSpeech.class.ts and its compiled ES6 build) and the
    properties of its configuration, event-registration, voice-query,
    control and status surfaces.

    Objects live in a store: a [TextToSpeech] instance holds a reference to
    its [SpeechSynthesisUtterance], the global [speechSynthesis] object holds
    the voice catalog and the listeners of its [voiceschanged] event.  Methods
    are computations in a state-and-failure monad over that store; a method
    fails only when it dereferences a dangling reference, which the
    well-formedness predicate [valid] excludes.

    The utterance and the engine are the platform's, not the class's.  What
    the utterance does with a number assigned to [rate], [pitch] or [volume]
    (reject it with a TypeError, convert it) and how the engine's flags react
    to a command are parameters of the embedding, [Attributes] and [Engine];
    a numeric setter ends in a [completion], normal or thrown. *)

From Stdlib Require Import QArith Qcanon Qminmax Qabs Lqa.
From stdpp Require Import base numbers gmap list strings.

(** * JavaScript numbers *)

(** A JavaScript [number] is NaN, an infinity, or a finite value.  Finite
    values are modelled as canonical rationals: every finite double is a
    rational, and the only operations the class performs on numbers,
    [Math.max] and [Math.min], return one of their arguments, so no rounding
    is involved.  The two zeros of IEEE 754 are identified, as [===] does. *)
Inductive number : Type :=
  | NaN
  | NegInfinity
  | Fin (q : Qc)
  | Infinity.

(** Integer literals of the source ([0], [10], [3], [1]). *)
Definition num (z : Z) : number := Fin (Qc_of_Z z).

Definition isNaN (a : number) : bool :=
  match a with NaN => true | _ => false end.

(** The [<] operator on numbers: false whenever an operand is NaN. *)
Definition num_lt (a b : number) : bool :=
  match a, b with
  | NaN, _ | _, NaN => false
  | _, NegInfinity => false
  | NegInfinity, _ => true
  | Infinity, _ => false
  | Fin _, Infinity => true
  | Fin p, Fin q => bool_decide (p < q)%Qc
  end.

(** The [<=] operator on numbers. *)
Definition num_le (a b : number) : bool :=
  negb (isNaN a) && negb (isNaN b) && negb (num_lt b a).

(** [Math.max(a, b)]: NaN if an argument is NaN, otherwise the scan of
    ECMAScript 21.3.2.24 that starts from the first argument and replaces it
    by the second one when that is larger. *)
Definition Math_max (a b : number) : number :=
  if isNaN a || isNaN b then NaN else if num_lt a b then b else a.

(** [Math.min(a, b)], symmetrically. *)
Definition Math_min (a b : number) : number :=
  if isNaN a || isNaN b then NaN else if num_lt b a then b else a.

(** [private clamp(min, value, max)]. *)
Definition clamp (min value max : number) : number :=
  let minClampedValue := Math_max value min in
  let fullyClampedValue := Math_min minClampedValue max in
  fullyClampedValue.

(** Membership of the closed range [[lo, hi]] with integer bounds. *)
Definition in_range (lo hi : Z) (x : number) : bool :=
  num_le (num lo) x && num_le x (num hi).

(** What the specification asks of [clamp] on the range [[0, hi]] at the
    real value [v]. *)
Definition clamps_to_range (hi : Z) (v : Qc) : Prop :=
  let r := clamp (num 0) (Fin v) (num hi) in
  in_range 0 hi r = true
  ∧ ((Qc_of_Z 0 ≤ v)%Qc ∧ (v ≤ Qc_of_Z hi)%Qc → r = Fin v)
  ∧ ((v < Qc_of_Z 0)%Qc → r = num 0)
  ∧ ((Qc_of_Z hi < v)%Qc → r = num hi).

(** * JavaScript strings *)

(** Strings are sequences of code units; [String.prefix f s] of the standard
    library tests whether [f] occurs at position 0 of [s]. *)

(** [s.includes(searchString)]: there is a position of [s] at which
    [searchString] occurs, code unit by code unit. *)
Fixpoint includes (s searchString : string) : bool :=
  String.prefix searchString s ||
  match s with
  | EmptyString => false
  | String _ s' => includes s' searchString
  end.

(** [f] occurs in [s] as a contiguous run of characters. *)
Definition substring_of (f s : string) : Prop :=
  ∃ pre post : string, s = pre +:+ f +:+ post.

(** * Platform objects *)

Definition loc := positive.

(** Function objects passed in by the caller are opaque: they are identified
    by their reference and their calls are recorded. *)
Definition funobj := positive.

Module Voice.
(** [SpeechSynthesisVoice]. *)
Record t : Type := mk {
  voiceURI : string;
  name : string;
  lang : string;
  localService : bool;
  default : bool
}.
End Voice.

Abbreviation SpeechSynthesisVoice := Voice.t.

(** The attributes of a [SpeechSynthesisUtterance] that the class assigns.
    The record holds what the utterance keeps: for [rate], [pitch] and
    [volume] that is what the platform makes of the assigned number, see
    [Attributes]. *)
Record SpeechSynthesisUtterance : Type := mkUtterance {
  text : string;
  lang : string;
  voice : option SpeechSynthesisVoice;
  volume : number;
  rate : number;
  pitch : number;
  onboundary : option funobj;
  onend : option funobj;
  onerror : option funobj;
  onmark : option funobj;
  onpause : option funobj;
  onresume : option funobj;
  onstart : option funobj
}.

(** Attribute assignments [u.attr = x]. *)
Definition with_text (x : string) (u : SpeechSynthesisUtterance) :=
  mkUtterance x (lang u) (voice u) (volume u) (rate u) (pitch u)
    (onboundary u) (onend u) (onerror u) (onmark u) (onpause u) (onresume u) (onstart u).
Definition with_lang (x : string) (u : SpeechSynthesisUtterance) :=
  mkUtterance (text u) x (voice u) (volume u) (rate u) (pitch u)
    (onboundary u) (onend u) (onerror u) (onmark u) (onpause u) (onresume u) (onstart u).
Definition with_voice (x : SpeechSynthesisVoice) (u : SpeechSynthesisUtterance) :=
  mkUtterance (text u) (lang u) (Some x) (volume u) (rate u) (pitch u)
    (onboundary u) (onend u) (onerror u) (onmark u) (onpause u) (onresume u) (onstart u).
Definition with_volume (x : number) (u : SpeechSynthesisUtterance) :=
  mkUtterance (text u) (lang u) (voice u) x (rate u) (pitch u)
    (onboundary u) (onend u) (onerror u) (onmark u) (onpause u) (onresume u) (onstart u).
Definition with_rate (x : number) (u : SpeechSynthesisUtterance) :=
  mkUtterance (text u) (lang u) (voice u) (volume u) x (pitch u)
    (onboundary u) (onend u) (onerror u) (onmark u) (onpause u) (onresume u) (onstart u).
Definition with_pitch (x : number) (u : SpeechSynthesisUtterance) :=
  mkUtterance (text u) (lang u) (voice u) (volume u) (rate u) x
    (onboundary u) (onend u) (onerror u) (onmark u) (onpause u) (onresume u) (onstart u).
Definition with_onboundary (h : funobj) (u : SpeechSynthesisUtterance) :=
  mkUtterance (text u) (lang u) (voice u) (volume u) (rate u) (pitch u)
    (Some h) (onend u) (onerror u) (onmark u) (onpause u) (onresume u) (onstart u).
Definition with_onend (h : funobj) (u : SpeechSynthesisUtterance) :=
  mkUtterance (text u) (lang u) (voice u) (volume u) (rate u) (pitch u)
    (onboundary u) (Some h) (onerror u) (onmark u) (onpause u) (onresume u) (onstart u).
Definition with_onerror (h : funobj) (u : SpeechSynthesisUtterance) :=
  mkUtterance (text u) (lang u) (voice u) (volume u) (rate u) (pitch u)
    (onboundary u) (onend u) (Some h) (onmark u) (onpause u) (onresume u) (onstart u).
Definition with_onmark (h : funobj) (u : SpeechSynthesisUtterance) :=
  mkUtterance (text u) (lang u) (voice u) (volume u) (rate u) (pitch u)
    (onboundary u) (onend u) (onerror u) (Some h) (onpause u) (onresume u) (onstart u).
Definition with_onpause (h : funobj) (u : SpeechSynthesisUtterance) :=
  mkUtterance (text u) (lang u) (voice u) (volume u) (rate u) (pitch u)
    (onboundary u) (onend u) (onerror u) (onmark u) (Some h) (onresume u) (onstart u).
Definition with_onresume (h : funobj) (u : SpeechSynthesisUtterance) :=
  mkUtterance (text u) (lang u) (voice u) (volume u) (rate u) (pitch u)
    (onboundary u) (onend u) (onerror u) (onmark u) (onpause u) (Some h) (onstart u).
Definition with_onstart (h : funobj) (u : SpeechSynthesisUtterance) :=
  mkUtterance (text u) (lang u) (voice u) (volume u) (rate u) (pitch u)
    (onboundary u) (onend u) (onerror u) (onmark u) (onpause u) (onresume u) (Some h).

(** The seven utterance-scoped event kinds. *)
Inductive event_kind : Type :=
  | EvStart | EvEnd | EvError | EvPause | EvResume | EvBoundary | EvMark.

(** The handler attribute of an event kind. *)
Definition handler_of (k : event_kind) (u : SpeechSynthesisUtterance) : option funobj :=
  match k with
  | EvStart => onstart u
  | EvEnd => onend u
  | EvError => onerror u
  | EvPause => onpause u
  | EvResume => onresume u
  | EvBoundary => onboundary u
  | EvMark => onmark u
  end.

(** The assignment to the handler attribute of an event kind. *)
Definition with_handler (k : event_kind) (h : funobj) (u : SpeechSynthesisUtterance)
    : SpeechSynthesisUtterance :=
  match k with
  | EvStart => with_onstart h u
  | EvEnd => with_onend h u
  | EvError => with_onerror h u
  | EvPause => with_onpause h u
  | EvResume => with_onresume h u
  | EvBoundary => with_onboundary h u
  | EvMark => with_onmark h u
  end.

(** An instance of the class: its one field, [private readonly utterance]. *)
Record TextToSpeech : Type := mkTextToSpeech { utterance : loc }.

(** The closure [() => { callback(this.getVoices()) }] that
    [setOnVoicesChanged] hands to [addEventListener]: it captures the
    caller's callback and the instance. *)
Record listener : Type := mkListener { callback : funobj; captured_this : loc }.

(** The global [speechSynthesis] object, as far as the class reads and
    writes it: the catalog that [speechSynthesis.getVoices()] reports and the
    listeners added for ["voiceschanged"], oldest first. *)
Record SpeechSynthesis : Type := mkSpeechSynthesis {
  voices : list SpeechSynthesisVoice;
  voiceschanged : list listener
}.

(** What a caller's function is called with. *)
Inductive argument : Type :=
  | ArgVoices (vs : list SpeechSynthesisVoice)
  | ArgEvent (k : event_kind) (target : loc).

Record invocation : Type := Invoke { callee : funobj; arg : argument }.

(** The store. [calls] records the calls of caller functions made so far,
    oldest first. *)
Record world : Type := mkWorld {
  instances : gmap loc TextToSpeech;
  utterances : gmap loc SpeechSynthesisUtterance;
  speechSynthesis : SpeechSynthesis;
  calls : list invocation
}.

(** * The monad of methods *)

Definition M (A : Type) : Type := world → option (A * world).

#[global] Instance M_ret : MRet M := λ A x w, Some (x, w).
#[global] Instance M_bind : MBind M := λ A B f m w,
  match m w with
  | Some (x, w') => f x w'
  | None => None
  end.

(** [this.utterance] *)
Definition get_utterance (this : loc) : M loc := λ w,
  match instances w !! this with
  | Some o => Some (utterance o, w)
  | None => None
  end.

(** [u.attr = x], for the assignment [assign] of one attribute. *)
Definition update_utterance (u : loc)
    (assign : SpeechSynthesisUtterance → SpeechSynthesisUtterance) : M unit := λ w,
  match utterances w !! u with
  | Some c =>
      Some (tt, mkWorld (instances w) (<[u := assign c]> (utterances w))
                  (speechSynthesis w) (calls w))
  | None => None
  end.

(** [speechSynthesis.getVoices()] *)
Definition speechSynthesis_getVoices : M (list SpeechSynthesisVoice) := λ w,
  Some (voices (speechSynthesis w), w).

(** [speechSynthesis.addEventListener("voiceschanged", l)].  Every listener
    the class adds is a closure created by that very call, so the platform's
    check for an identical listener already present never applies. *)
Definition speechSynthesis_addEventListener (l : listener) : M unit := λ w,
  Some (tt, mkWorld (instances w) (utterances w)
              (mkSpeechSynthesis (voices (speechSynthesis w))
                 (voiceschanged (speechSynthesis w) ++ [l]))
              (calls w)).

(** A call [f(a)] of a caller's function. *)
Definition invoke (f : funobj) (a : argument) : M unit := λ w,
  Some (tt, mkWorld (instances w) (utterances w) (speechSynthesis w)
              (calls w ++ [Invoke f a])).

(** * The numeric attributes of the platform's utterance *)

(** What the platform's [SpeechSynthesisUtterance] does with a number
    assigned to [rate], [pitch] or [volume]: it throws a TypeError ([None])
    or keeps a number, which need not be the assigned one (browsers convert
    to single precision and clip to the range of their engine).  The
    utterance class is the platform's: its behaviour is a parameter of the
    embedding. *)
Class Attributes : Type := {
  store_rate : number → option number;
  store_pitch : number → option number;
  store_volume : number → option number
}.

(** What the class needs of the platform to keep its ranges: NaN is
    rejected, and a number within the range the class clamps to is accepted
    and what is kept of it is within that range. *)
Class AttributeLaws (pf : Attributes) : Prop := {
  rate_rejects_NaN : store_rate NaN = None;
  pitch_rejects_NaN : store_pitch NaN = None;
  volume_rejects_NaN : store_volume NaN = None;
  rate_keeps_range : ∀ x, in_range 0 10 x = true →
    ∃ y, store_rate x = Some y ∧ in_range 0 10 y = true;
  pitch_keeps_range : ∀ x, in_range 0 3 x = true →
    ∃ y, store_pitch x = Some y ∧ in_range 0 3 y = true;
  volume_keeps_range : ∀ x, in_range 0 1 x = true →
    ∃ y, store_volume x = Some y ∧ in_range 0 1 y = true
}.

(** How a call ends: it returns a value, or an assignment in it throws a
    TypeError. *)
Inductive completion (A : Type) : Type :=
  | Normal (x : A)
  | TypeError.

Arguments Normal {A} x.
Arguments TypeError {A}.

(** [u.attr = x] for a numeric attribute, where [kept] is what the platform
    makes of [x]: the assignment throws, or the utterance keeps [kept]. *)
Definition assign_number (u : loc) (kept : option number)
    (assign : number → SpeechSynthesisUtterance → SpeechSynthesisUtterance)
    : M (completion unit) :=
  match kept with
  | Some y => update_utterance u (assign y);; mret (Normal tt)
  | None => mret TypeError
  end.

(** ** A browser's attributes *)

(** The nearest integer to [p / d], ties to even, for [p >= 0]. *)
Definition round_half_even (p : Z) (d : positive) : Z :=
  let fl := (p / Z.pos d)%Z in
  match (2 * (p mod Z.pos d) ?= Z.pos d)%Z with
  | Lt => fl
  | Gt => (fl + 1)%Z
  | Eq => if Z.even fl then fl else (fl + 1)%Z
  end.

(** The exponent [e] with [2^e <= a < 2^(e+1)], for [a > 0]. *)
Definition floor_log2 (a : Q) : Z :=
  let k := (Z.log2 (Qnum a) - Z.log2 (Z.pos (Qden a)))%Z in
  if Qle_bool (2 ^ k) a then k else (k - 1)%Z.

(** The single-precision number nearest to [a > 0]: 24 significant bits,
    exponents from -126 up. *)
Definition fround_pos (a : Q) : Q :=
  let e := Z.max (floor_log2 a) (-126) in
  let ulp := (2 ^ (e - 23))%Q in
  let r := (a / ulp)%Q in
  (inject_Z (round_half_even (Qnum r) (Qden r)) * ulp)%Q.

(** [Math.fround] on finite numbers below the overflow threshold. *)
Definition fround (q : Qc) : Qc :=
  Q2Qc match (q ?= 0)%Q with
       | Eq => 0
       | Gt => fround_pos q
       | Lt => - fround_pos (- q)
       end.

(** From [2^128 - 2^103] on, the nearest single-precision number is out of
    range. *)
Definition float_overflow (q : Qc) : bool :=
  Qle_bool (2 ^ 128 - 2 ^ 103) (Qabs q).

(** The conversion of a number to an IDL [float]: NaN, the infinities and
    numbers out of range throw, the others are rounded. *)
Definition to_float (x : number) : option Qc :=
  match x with
  | Fin q => if float_overflow q then None else Some (fround q)
  | _ => None
  end.

Definition clip (lo hi y : Qc) : Qc :=
  if bool_decide (y < lo)%Qc then lo
  else if bool_decide (hi < y)%Qc then hi
  else y.

(** The attributes as a browser has them: a [float] attribute each, whose
    value the utterance clips to the engine's range, 0.1 to 10 for the rate,
    0 to 2 for the pitch, 0 to 1 for the volume. *)
Definition browser : Attributes := {|
  store_rate x :=
    y ← to_float x; Some (Fin (clip (fround (Q2Qc (1 # 10))) (Qc_of_Z 10) y));
  store_pitch x :=
    y ← to_float x; Some (Fin (clip (Qc_of_Z 0) (Qc_of_Z 2) y));
  store_volume x :=
    y ← to_float x; Some (Fin (clip (Qc_of_Z 0) (Qc_of_Z 1) y))
|}.

(** * The class *)

(** [constructor()]: [this.utterance = new SpeechSynthesisUtterance()].  The
    attribute values of a new utterance are the platform's; they are the
    parameter [fresh_utterance]. *)
Definition new_TextToSpeech (fresh_utterance : SpeechSynthesisUtterance) : M loc := λ w,
  let u := fresh (dom (utterances w)) in
  let this := fresh (dom (instances w)) in
  Some (this, mkWorld (<[this := mkTextToSpeech u]> (instances w))
                (<[u := fresh_utterance]> (utterances w))
                (speechSynthesis w) (calls w)).

Definition setVoiceRate {pf : Attributes} (this : loc) (rate : number)
    : M (completion loc) :=
  u ← get_utterance this;
  c ← assign_number u (store_rate (clamp (num 0) rate (num 10))) with_rate;
  match c with
  | Normal _ => mret (Normal this)
  | TypeError => mret TypeError
  end.

Definition setVoicePitch {pf : Attributes} (this : loc) (pitch : number)
    : M (completion loc) :=
  u ← get_utterance this;
  c ← assign_number u (store_pitch (clamp (num 0) pitch (num 3))) with_pitch;
  match c with
  | Normal _ => mret (Normal this)
  | TypeError => mret TypeError
  end.

Definition setVolume {pf : Attributes} (this : loc) (volumeLevel : number)
    : M (completion loc) :=
  u ← get_utterance this;
  c ← assign_number u (store_volume (clamp (num 0) volumeLevel (num 1))) with_volume;
  match c with
  | Normal _ => mret (Normal this)
  | TypeError => mret TypeError
  end.

Definition setLanguage (this : loc) (languageCode : string) : M loc :=
  u ← get_utterance this;
  update_utterance u (with_lang languageCode);;
  mret this.

Definition setVoiceSpeech (this : loc) (voiceObject : SpeechSynthesisVoice) : M loc :=
  u ← get_utterance this;
  update_utterance u (with_voice voiceObject);;
  mret this.

Definition setVoiceText (this : loc) (utteranceText : string) : M loc :=
  u ← get_utterance this;
  update_utterance u (with_text utteranceText);;
  mret this.

(** [getVoices(optionalCountryCodeFilter?)].  The parameter is [None] when
    the argument is left out; [!optionalCountryCodeFilter] holds for a
    missing argument and for the empty string. *)
Definition getVoices (this : loc) (optionalCountryCodeFilter : option string)
    : M (list SpeechSynthesisVoice) :=
  voices ← speechSynthesis_getVoices;
  match optionalCountryCodeFilter with
  | None | Some EmptyString => mret voices
  | Some f => mret (List.filter (λ voice, includes (Voice.lang voice) f) voices)
  end.

Definition setOnVoicesChanged (this : loc) (callback : funobj) : M loc :=
  speechSynthesis_addEventListener (mkListener callback this);;
  mret this.

Definition setOnBoundary (this : loc) (handler : funobj) : M loc :=
  u ← get_utterance this;
  update_utterance u (with_onboundary handler);;
  mret this.

Definition setOnEnd (this : loc) (handler : funobj) : M loc :=
  u ← get_utterance this;
  update_utterance u (with_onend handler);;
  mret this.

Definition setOnError (this : loc) (handler : funobj) : M loc :=
  u ← get_utterance this;
  update_utterance u (with_onerror handler);;
  mret this.

Definition setOnMark (this : loc) (handler : funobj) : M loc :=
  u ← get_utterance this;
  update_utterance u (with_onmark handler);;
  mret this.

Definition setOnPause (this : loc) (handler : funobj) : M loc :=
  u ← get_utterance this;
  update_utterance u (with_onpause handler);;
  mret this.

Definition setOnResume (this : loc) (handler : funobj) : M loc :=
  u ← get_utterance this;
  update_utterance u (with_onresume handler);;
  mret this.

Definition setOnStart (this : loc) (handler : funobj) : M loc :=
  u ← get_utterance this;
  update_utterance u (with_onstart handler);;
  mret this.

(** The configuration and registration methods, as one type of calls. *)
Inductive setter : Type :=
  | SetVoiceRate (rate : number)
  | SetVoicePitch (pitch : number)
  | SetVolume (volumeLevel : number)
  | SetLanguage (languageCode : string)
  | SetVoiceSpeech (voiceObject : SpeechSynthesisVoice)
  | SetVoiceText (utteranceText : string)
  | SetOn (k : event_kind) (handler : funobj)
  | SetOnVoicesChanged (callback : funobj).

(** [this.setOn<Kind>(handler)] *)
Definition setOn (k : event_kind) : loc → funobj → M loc :=
  match k with
  | EvStart => setOnStart
  | EvEnd => setOnEnd
  | EvError => setOnError
  | EvPause => setOnPause
  | EvResume => setOnResume
  | EvBoundary => setOnBoundary
  | EvMark => setOnMark
  end.

Definition call {pf : Attributes} (this : loc) (s : setter) : M (completion loc) :=
  match s with
  | SetVoiceRate x => setVoiceRate this x
  | SetVoicePitch x => setVoicePitch this x
  | SetVolume x => setVolume this x
  | SetLanguage x => r ← setLanguage this x; mret (Normal r)
  | SetVoiceSpeech x => r ← setVoiceSpeech this x; mret (Normal r)
  | SetVoiceText x => r ← setVoiceText this x; mret (Normal r)
  | SetOn k h => r ← setOn k this h; mret (Normal r)
  | SetOnVoicesChanged cb => r ← setOnVoicesChanged this cb; mret (Normal r)
  end.

(** A fluent chain [this.s1(..).s2(..)...]: every call is made on the
    reference the call before it returned; a call that throws ends the
    chain. *)
Fixpoint chain {pf : Attributes} (this : loc) (ss : list setter)
    : M (completion loc) :=
  match ss with
  | [] => mret (Normal this)
  | s :: ss' =>
      c ← call this s;
      match c with
      | Normal r => chain r ss'
      | TypeError => mret TypeError
      end
  end.

(** * The platform's side *)

(** The body of the listener closure: [callback(this.getVoices())]. *)
Definition run_listener (l : listener) : M unit :=
  vs ← getVoices (captured_this l) None;
  invoke (callback l) (ArgVoices vs).

Fixpoint run_listeners (ls : list listener) : M unit :=
  match ls with
  | [] => mret tt
  | l :: ls' => run_listener l;; run_listeners ls'
  end.

(** The [voiceschanged] event fires on [speechSynthesis]: the platform calls
    the listeners added so far, in the order they were added. *)
Definition fire_voiceschanged : M unit := λ w,
  run_listeners (voiceschanged (speechSynthesis w)) w.

(** The engine replaces its voice catalog. *)
Definition engine_set_voices (vs : list SpeechSynthesisVoice) : M unit := λ w,
  Some (tt, mkWorld (instances w) (utterances w)
              (mkSpeechSynthesis vs (voiceschanged (speechSynthesis w)))
              (calls w)).

(** The engine raises an event of kind [k] on the utterance [u]: the handler
    attribute of that kind, when it is set, is called with the event. *)
Definition raise (k : event_kind) (u : loc) : M unit := λ w,
  match utterances w !! u with
  | Some c =>
      match handler_of k c with
      | Some h => invoke h (ArgEvent k u) w
      | None => Some (tt, w)
      end
  | None => None
  end.

(** What can happen to a store: the caller constructs an instance, calls a
    setter (which returns or throws; either way things go on) or queries the
    voices; the engine changes its catalog, fires [voiceschanged] or raises
    an utterance event. *)
Inductive action : Type :=
  | ANew (fresh_utterance : SpeechSynthesisUtterance)
  | ACall (this : loc) (s : setter)
  | AGetVoices (this : loc) (optionalCountryCodeFilter : option string)
  | ASetVoices (vs : list SpeechSynthesisVoice)
  | AFire
  | ARaise (k : event_kind) (u : loc).

Definition perform {pf : Attributes} (a : action) : M unit :=
  match a with
  | ANew fresh_utterance => new_TextToSpeech fresh_utterance;; mret tt
  | ACall this s => call this s;; mret tt
  | AGetVoices this f => getVoices this f;; mret tt
  | ASetVoices vs => engine_set_voices vs
  | AFire => fire_voiceschanged
  | ARaise k u => raise k u
  end.

Fixpoint perform_all {pf : Attributes} (acts : list action) : M unit :=
  match acts with
  | [] => mret tt
  | a :: acts' => perform a;; perform_all acts'
  end.

(** * Observations *)

(** The utterance configuration of an instance. *)
Definition config (this : loc) (w : world) : option SpeechSynthesisUtterance :=
  match instances w !! this with
  | Some o => utterances w !! utterance o
  | None => None
  end.

(** [this] refers to an instance whose utterance exists. *)
Definition valid (this : loc) (w : world) : Prop := is_Some (config this w).

(** The three numeric attributes are within their ranges. *)
Definition clamped (c : SpeechSynthesisUtterance) : bool :=
  in_range 0 10 (rate c) && in_range 0 3 (pitch c) && in_range 0 1 (volume c).

(** The attributes of an utterance by name, and their values. *)
Inductive attribute : Type :=
  | AText | ALang | AVoice | AVolume | ARate | APitch
  | AHandler (k : event_kind).

Inductive value : Type :=
  | VString (s : string)
  | VNumber (x : number)
  | VVoice (v : option SpeechSynthesisVoice)
  | VFunction (f : option funobj).

Definition read (a : attribute) (c : SpeechSynthesisUtterance) : value :=
  match a with
  | AText => VString (text c)
  | ALang => VString (lang c)
  | AVoice => VVoice (voice c)
  | AVolume => VNumber (volume c)
  | ARate => VNumber (rate c)
  | APitch => VNumber (pitch c)
  | AHandler k => VFunction (handler_of k c)
  end.

(** The attribute a setter is named after; [setOnVoicesChanged] has none. *)
Definition attribute_of (s : setter) : option attribute :=
  match s with
  | SetVoiceRate _ => Some ARate
  | SetVoicePitch _ => Some APitch
  | SetVolume _ => Some AVolume
  | SetLanguage _ => Some ALang
  | SetVoiceSpeech _ => Some AVoice
  | SetVoiceText _ => Some AText
  | SetOn k _ => Some (AHandler k)
  | SetOnVoicesChanged _ => None
  end.

(** The numeric argument of a setter, when it has one. *)
Definition numeric_argument (s : setter) : option number :=
  match s with
  | SetVoiceRate x | SetVoicePitch x | SetVolume x => Some x
  | _ => None
  end.

(** The numeric argument of the call, when there is one, is not NaN. *)
Definition non_NaN_argument (s : setter) : bool :=
  match numeric_argument s with
  | Some x => negb (isNaN x)
  | None => true
  end.

(** ** The effect of a call, in one piece *)

(** The utterance after the assignment a setter makes, or [None] when the
    assignment throws. *)
Definition assigned {pf : Attributes} (s : setter) (c : SpeechSynthesisUtterance)
    : option SpeechSynthesisUtterance :=
  match s with
  | SetVoiceRate x =>
      y ← store_rate (clamp (num 0) x (num 10)); Some (with_rate y c)
  | SetVoicePitch x =>
      y ← store_pitch (clamp (num 0) x (num 3)); Some (with_pitch y c)
  | SetVolume x =>
      y ← store_volume (clamp (num 0) x (num 1)); Some (with_volume y c)
  | SetLanguage x => Some (with_lang x c)
  | SetVoiceSpeech x => Some (with_voice x c)
  | SetVoiceText x => Some (with_text x c)
  | SetOn k h => Some (with_handler k h c)
  | SetOnVoicesChanged _ => Some c
  end.

(** The call throws: the platform rejects the number it assigns. *)
Definition throws {pf : Attributes} (s : setter) : bool :=
  match s with
  | SetVoiceRate x =>
      match store_rate (clamp (num 0) x (num 10)) with Some _ => false | None => true end
  | SetVoicePitch x =>
      match store_pitch (clamp (num 0) x (num 3)) with Some _ => false | None => true end
  | SetVolume x =>
      match store_volume (clamp (num 0) x (num 1)) with Some _ => false | None => true end
  | _ => false
  end.

(** The utterance after the calls of a chain, up to the first that throws. *)
Fixpoint applied {pf : Attributes} (ss : list setter) (c : SpeechSynthesisUtterance)
    : SpeechSynthesisUtterance :=
  match ss with
  | [] => c
  | s :: ss' =>
      match assigned s c with
      | Some c' => applied ss' c'
      | None => c
      end
  end.

(** How a chain ends on the instance [this]. *)
Definition chain_completion {pf : Attributes} (this : loc) (ss : list setter)
    : completion loc :=
  if forallb (λ s, negb (throws s)) ss then Normal this else TypeError.

(** The calls of a chain that are made: those up to the first that throws,
    without it. *)
Fixpoint made {pf : Attributes} (ss : list setter) : list setter :=
  match ss with
  | [] => []
  | s :: ss' => if throws s then [] else s :: made ss'
  end.

(** The listeners a setter adds. *)
Definition added_listeners (this : loc) (s : setter) : list listener :=
  match s with
  | SetOnVoicesChanged cb => [mkListener cb this]
  | _ => []
  end.

(** The call [m] made in [w] returns the reference [r]. *)
Definition returns (m : M loc) (w : world) (r : loc) : Prop :=
  ∃ w', m w = Some (r, w').

(** The call [m] made in [w] completes normally and returns [r]. *)
Definition returns_normally (m : M (completion loc)) (w : world) (r : loc) : Prop :=
  ∃ w', m w = Some (Normal r, w').

(** The calls a firing of [voiceschanged] makes in the store [w]. *)
Definition notifications (w : world) : list invocation :=
  map (λ l, Invoke (callback l) (ArgVoices (voices (speechSynthesis w))))
    (voiceschanged (speechSynthesis w)).

Definition add_calls (cs : list invocation) (w : world) : world :=
  mkWorld (instances w) (utterances w) (speechSynthesis w) (calls w ++ cs).

(** * The control and status surfaces *)

(** What the class asks of the engine. *)
Inductive command : Type :=
  | CmdSpeak (u : loc)
  | CmdCancel
  | CmdPause
  | CmdResume.

(** The flags [speechSynthesis.paused], [.speaking] and [.pending]. *)
Record engine_status : Type := mkStatus {
  paused : bool;
  speaking : bool;
  pending : bool
}.


(** The store together with the control side of the engine: the commands it
    has received so far, oldest first, and the flags it reports. *)
Record platform : Type := mkPlatform {
  store : world;
  commands : list command;
  status : engine_status
}.

Definition P (A : Type) : Type := platform → option (A * platform).


















(** The calls of the log that pass a voice list. *)
Definition voice_calls (cs : list invocation) : list invocation :=
  List.filter (λ i, match arg i with ArgVoices _ => true | ArgEvent _ _ => false end) cs.

(** No [voiceschanged] firing among the actions. *)
Definition no_firing (acts : list action) : bool :=
  forallb (λ a, match a with AFire => false | _ => true end) acts.

(** The utterance [new SpeechSynthesisUtterance()] returns, with the
    defaults of the Web Speech API: no text, no language, no voice, no
    handler, and volume, rate and pitch 1. *)
Definition new_SpeechSynthesisUtterance : SpeechSynthesisUtterance :=
  mkUtterance "" "" None (num 1) (num 1) (num 1) None None None None None None None.

(** The calls [ss] made on [this] one after the other, each returning or
    throwing. *)
Definition calls_on (this : loc) (ss : list setter) : list action :=
  map (ACall this) ss.

(** A store to evaluate on: one instance at reference 1, its utterance at
    reference 1 with rate, pitch and volume 1, an English and a French
    voice, no listener. *)
Definition sample_utterance : SpeechSynthesisUtterance :=
  mkUtterance "" "" None (num 1) (num 1) (num 1) None None None None None None None.

Definition voice_en : SpeechSynthesisVoice :=
  Voice.mk "urn:voice:en" "Samantha" "en-US" true true.
Definition voice_fr : SpeechSynthesisVoice :=
  Voice.mk "urn:voice:fr" "Thomas" "fr-FR" true false.

Definition empty_world : world :=
  mkWorld ∅ ∅ (mkSpeechSynthesis [voice_en; voice_fr] []) [].

Definition sample_world : world :=
  mkWorld {[ 1%positive := mkTextToSpeech 1%positive ]}
    {[ 1%positive := sample_utterance ]}
    (mkSpeechSynthesis [voice_en; voice_fr] []) [].



(** * Properties of [clamp] *)

Section clamp_facts.
Local Open Scope Qc_scope.

Lemma Qc_of_Z_le (a b : Z) : (a ≤ b)%Z → Qc_of_Z a ≤ Qc_of_Z b.
Proof. intros H. unfold Qcle, Qle. simpl. lia. Qed.

(** On finite arguments [clamp] is a two-step selection. *)
Lemma clamp_fin (lo v hi : Qc) :
  clamp (Fin lo) (Fin v) (Fin hi) =
  Fin (if bool_decide (hi < if bool_decide (v < lo) then lo else v) then hi
       else if bool_decide (v < lo) then lo else v).
Proof.
  unfold clamp, Math_max, Math_min. simpl.
  destruct (bool_decide (v < lo)); simpl;
    match goal with |- context [bool_decide ?P] => destruct (bool_decide P) end;
    reflexivity.
Qed.

Lemma clamp_inside (lo v hi : Qc) :
  lo ≤ v → v ≤ hi → clamp (Fin lo) (Fin v) (Fin hi) = Fin v.
Proof.
  intros H1 H2. rewrite clamp_fin.
  rewrite (bool_decide_eq_false_2 (v < lo)) by by apply Qcle_not_lt.
  by rewrite (bool_decide_eq_false_2 (hi < v)) by by apply Qcle_not_lt.
Qed.

Lemma clamp_below (lo v hi : Qc) :
  lo ≤ hi → v < lo → clamp (Fin lo) (Fin v) (Fin hi) = Fin lo.
Proof.
  intros H1 H2. rewrite clamp_fin.
  rewrite (bool_decide_eq_true_2 (v < lo)) by done.
  by rewrite (bool_decide_eq_false_2 (hi < lo)) by by apply Qcle_not_lt.
Qed.

Lemma clamp_above (lo v hi : Qc) :
  lo ≤ hi → hi < v → clamp (Fin lo) (Fin v) (Fin hi) = Fin hi.
Proof.
  intros H1 H2. rewrite clamp_fin.
  assert (¬ v < lo) as Hn.
  { intros Hv. apply (Qclt_not_le _ _ H2).
    apply Qclt_le_weak in Hv. by etrans. }
  rewrite (bool_decide_eq_false_2 (v < lo)) by done.
  by rewrite (bool_decide_eq_true_2 (hi < v)) by done.
Qed.

(** [clamp] against the minimum and maximum of the rationals. *)
Lemma clamp_min_max (lo v hi : Qc) :
  ∃ r : Qc, clamp (Fin lo) (Fin v) (Fin hi) = Fin r
            ∧ (r == Qmin (Qmax v lo) hi)%Q.
Proof.
  rewrite clamp_fin. eexists; split; [done|].
  destruct (bool_decide (v < lo)) eqn:Hv;
    [apply bool_decide_eq_true_1 in Hv | apply bool_decide_eq_false_1 in Hv];
    case_bool_decide as Hh; unfold Qclt in *.
  - rewrite (Q.max_r v lo) by by apply Qlt_le_weak.
    rewrite Q.min_r; [done | by apply Qlt_le_weak].
  - rewrite (Q.max_r v lo) by by apply Qlt_le_weak.
    rewrite Q.min_l; [done | by apply Qnot_lt_le].
  - rewrite (Q.max_l v lo) by by apply Qnot_lt_le.
    rewrite Q.min_r; [done | by apply Qlt_le_weak].
  - rewrite (Q.max_l v lo) by by apply Qnot_lt_le.
    rewrite Q.min_l; [done | by apply Qnot_lt_le].
Qed.

Lemma num_le_fin (p q : Qc) : num_le (Fin p) (Fin q) = true ↔ p ≤ q.
Proof.
  unfold num_le. simpl. rewrite negb_true_iff, bool_decide_eq_false.
  symmetry. apply Qcle_ngt.
Qed.

(** Between integer bounds in order, [clamp] of anything but NaN is in
    range: the infinities go to the bounds. *)
Lemma clamp_in_range (lo hi : Z) (v : number) :
  (lo ≤ hi)%Z → isNaN v = false →
  in_range lo hi (clamp (num lo) v (num hi)) = true.
Proof.
  intros Hle Hv. apply Qc_of_Z_le in Hle.
  unfold in_range, num in *. apply andb_true_iff.
  destruct v as [| |q|]; [done| | |].
  - replace (clamp (Fin (Qc_of_Z lo)) NegInfinity (Fin (Qc_of_Z hi)))
      with (Fin (Qc_of_Z lo)).
    + by rewrite !num_le_fin.
    + unfold clamp, Math_max, Math_min. simpl.
      by rewrite bool_decide_eq_false_2 by by apply Qcle_not_lt.
  - destruct (Qclt_le_dec q (Qc_of_Z lo)) as [Hlo|Hlo].
    { rewrite clamp_below by done. by rewrite !num_le_fin. }
    destruct (Qclt_le_dec (Qc_of_Z hi) q) as [Hhi|Hhi].
    { rewrite clamp_above by done. by rewrite !num_le_fin. }
    rewrite clamp_inside by done. by rewrite !num_le_fin.
  - replace (clamp (Fin (Qc_of_Z lo)) Infinity (Fin (Qc_of_Z hi)))
      with (Fin (Qc_of_Z hi)) by done.
    by rewrite !num_le_fin.
Qed.

(** NaN goes through [clamp] whatever the bounds. *)
Lemma clamp_NaN (lo hi : number) : clamp lo NaN hi = NaN.
Proof. reflexivity. Qed.

End clamp_facts.

Lemma clamps_to_range_intro (hi : Z) (v : Qc) :
  (0 ≤ hi)%Z → clamps_to_range hi v.
Proof.
  intros Hhi. unfold clamps_to_range, num. split_and!.
  - by apply clamp_in_range.
  - intros [??]. by apply clamp_inside.
  - intros ?. apply clamp_below; [by apply Qc_of_Z_le | done].
  - intros ?. apply clamp_above; [by apply Qc_of_Z_le | done].
Qed.

(** C1. On real arguments [clamp(min, value, max)] is the minimum of [max]
    and the maximum of [value] and [min]; for every real [v],
    [clamp(0, v, 10)] lies in [[0, 10]], is [v] when [0 <= v <= 10], is [0]
    when [v < 0] and is [10] when [v > 10], and likewise for the ranges
    [[0, 3]] and [[0, 1]]. *)
Theorem clamp_spec :
  (∀ lo v hi : Qc,
     ∃ r : Qc, clamp (Fin lo) (Fin v) (Fin hi) = Fin r
               ∧ (r == Qmin (Qmax v lo) hi)%Q)
  ∧ ∀ v : Qc, clamps_to_range 10 v ∧ clamps_to_range 3 v ∧ clamps_to_range 1 v.
Proof.
  split; [apply clamp_min_max|].
  intros v. split_and!; by apply clamps_to_range_intro.
Qed.

Lemma clamp_spec_witness :
  clamp (num 0) (Fin (Qc_of_Z 4)) (num 10) = Fin (Qc_of_Z 4)
  ∧ clamp (num 0) (Fin (Qc_of_Z (-5))) (num 10) = num 0
  ∧ clamp (num 0) (Fin (Qc_of_Z 99)) (num 10) = num 10.
Proof.
  split_and!.
  - apply (proj1 (proj2 (proj1 (proj2 clamp_spec (Qc_of_Z 4))))).
    split; vm_compute; discriminate.
  - apply (proj1 (proj2 (proj2 (proj1 (proj2 clamp_spec (Qc_of_Z (-5))))))).
    vm_compute; reflexivity.
  - apply (proj2 (proj2 (proj2 (proj1 (proj2 clamp_spec (Qc_of_Z 99)))))).
    vm_compute; reflexivity.
Defined.

(** C8. For reals [min], [value], [max] with [min > max],
    [clamp(min, value, max)] is [max]. *)
Theorem clamp_crossed_bounds (min value max : Qc) :
  (max < min)%Qc → clamp (Fin min) (Fin value) (Fin max) = Fin max.
Proof.
  intros H. rewrite clamp_fin.
  destruct (bool_decide (value < min)%Qc) eqn:Hv.
  - (* [Math.max(value, min)] is [min], which is above [max] *)
    by rewrite bool_decide_eq_true_2.
  - (* [Math.max(value, min)] is [value], at least [min], so above [max] *)
    apply bool_decide_eq_false_1, Qcnot_lt_le in Hv.
    rewrite bool_decide_eq_true_2; [done|]. by eapply Qclt_le_trans.
Qed.

Lemma clamp_crossed_bounds_witness :
  clamp (num 5) (num 7) (num 2) = num 2
  ∧ clamp (num 5) (num 3) (num 2) = num 2
  ∧ clamp (num 5) (num 0) (num 2) = num 2.
Proof.
  split_and!; apply clamp_crossed_bounds; vm_compute; reflexivity.
Defined.

(** * The browser's attributes keep the ranges *)

Lemma in_range_fin (lo hi : Z) (x : number) :
  in_range lo hi x = true →
  ∃ q : Qc, x = Fin q ∧ (Qc_of_Z lo ≤ q)%Qc ∧ (q ≤ Qc_of_Z hi)%Qc.
Proof.
  unfold in_range, num. intros [H1 H2]%andb_true_iff.
  destruct x as [| |q|]; try done.
  exists q. by rewrite !num_le_fin in *.
Qed.

Lemma clip_range (lo hi y : Qc) :
  (lo ≤ hi)%Qc → (lo ≤ clip lo hi y)%Qc ∧ (clip lo hi y ≤ hi)%Qc.
Proof.
  intros Hle. unfold clip.
  destruct (bool_decide (y < lo)%Qc) eqn:Hlo.
  { split; [apply Qcle_refl | done]. }
  apply bool_decide_eq_false_1, Qcnot_lt_le in Hlo.
  destruct (bool_decide (hi < y)%Qc) eqn:Hhi.
  { split; [done | apply Qcle_refl]. }
  apply bool_decide_eq_false_1, Qcnot_lt_le in Hhi. done.
Qed.

Lemma to_float_in_range (hi : Z) (q : Qc) :
  (hi ≤ 10)%Z → (Qc_of_Z 0 ≤ q)%Qc → (q ≤ Qc_of_Z hi)%Qc →
  to_float (Fin q) = Some (fround q).
Proof.
  intros Hhi H0 Hq. unfold to_float, float_overflow.
  destruct (Qle_bool (2 ^ 128 - 2 ^ 103) (Qabs q)) eqn:Hov; [|done].
  exfalso. apply Qle_bool_iff in Hov.
  rewrite Qabs_pos in Hov by exact H0.
  assert (q <= inject_Z hi)%Q as Hq' by exact Hq.
  assert (inject_Z hi <= inject_Z 10)%Q as Hhi' by (by rewrite <- Zle_Qle).
  assert (inject_Z 10 < 2 ^ 128 - 2 ^ 103)%Q as Hbig by reflexivity.
  lra.
Qed.

Lemma store_clipped (lo hi : Qc) (hi' : Z) (x : number) :
  (hi' ≤ 10)%Z → (Qc_of_Z 0 ≤ lo)%Qc → (lo ≤ hi)%Qc → (hi ≤ Qc_of_Z hi')%Qc →
  in_range 0 hi' x = true →
  ∃ y, (y ← to_float x; Some (Fin (clip lo hi y))) = Some y
       ∧ in_range 0 hi' y = true.
Proof.
  intros Hhi Hlo Hle Hhi' (q & -> & Hq0 & Hq)%in_range_fin.
  rewrite (to_float_in_range hi' q) by done. simpl.
  eexists. split; [done|].
  destruct (clip_range lo hi (fround q) Hle) as [H1 H2].
  unfold in_range, num. apply andb_true_iff.
  rewrite !num_le_fin.
  split; [by apply (Qcle_trans _ lo) | by apply (Qcle_trans _ hi)].
Qed.

(** The browser's attributes are as the class needs them. *)
Lemma browser_laws : AttributeLaws browser.
Proof.
  split; try reflexivity.
  - intros x Hx. apply (store_clipped _ _ 10); try done; by vm_compute.
  - intros x Hx. apply (store_clipped _ _ 3); try done; by vm_compute.
  - intros x Hx. apply (store_clipped _ _ 1); try done; by vm_compute.
Qed.

(** What the browser keeps of some assigned numbers: rate 0 becomes the
    single-precision 0.1, pitch 3 becomes 2, and 0.3 is rounded. *)
Example browser_sample :
  store_rate (Attributes := browser) (num 0) = Some (Fin (fround (Q2Qc (1 # 10))))
  ∧ this (fround (Q2Qc (1 # 10))) = (13421773 # 134217728)%Q
  ∧ store_pitch (Attributes := browser) (num 3) = Some (Fin (Qc_of_Z 2))
  ∧ this (fround (Q2Qc (3 # 10))) = (5033165 # 16777216)%Q
  ∧ store_volume (Attributes := browser) NaN = None
  ∧ store_rate (Attributes := browser) Infinity = None.
Proof. split_and!; reflexivity. Qed.

(** * The effect of a setter on the store *)

Ltac run_method :=
  cbv [call setOn setVoiceRate setVoicePitch setVolume setLanguage setVoiceSpeech
       setVoiceText setOnVoicesChanged setOnBoundary setOnEnd setOnError
       setOnMark setOnPause setOnResume setOnStart getVoices assign_number
       get_utterance update_utterance speechSynthesis_getVoices
       speechSynthesis_addEventListener invoke
       mbind M_bind mret M_ret]; cbv beta.

Lemma config_Some (this : loc) (w : world) c :
  config this w = Some c ↔
  ∃ o, instances w !! this = Some o ∧ utterances w !! utterance o = Some c.
Proof.
  unfold config. split.
  - destruct (instances w !! this) as [o|]; [eauto | done].
  - by intros (o & -> & H).
Qed.

Lemma assigned_throws {pf : Attributes} (s : setter) (c : SpeechSynthesisUtterance) :
  assigned s c = None ↔ throws s = true.
Proof.
  destruct s as [x|x|x|x|x|x|k h|cb]; simpl; try done.
  - by destruct (store_rate _).
  - by destruct (store_pitch _).
  - by destruct (store_volume _).
Qed.

Lemma assigned_accepted {pf : Attributes} (s : setter) (c : SpeechSynthesisUtterance) :
  throws s = false → is_Some (assigned s c).
Proof.
  intros Hs. destruct (assigned s c) eqn:Ha; [by eexists|].
  apply assigned_throws in Ha. congruence.
Qed.

(** The outcome of a setter call, in one piece: the store with the
    assignment made and the instance returned, or the store as it was and a
    TypeError. *)
Lemma call_eq {pf : Attributes} (this : loc) (s : setter) (w : world) o c :
  instances w !! this = Some o →
  utterances w !! utterance o = Some c →
  call this s w =
  Some match assigned s c with
       | Some c' =>
           (Normal this,
            mkWorld (instances w) (<[utterance o := c']> (utterances w))
              (mkSpeechSynthesis (voices (speechSynthesis w))
                 (voiceschanged (speechSynthesis w) ++ added_listeners this s))
              (calls w))
       | None => (TypeError, w)
       end.
Proof.
  intros Ho Hc. destruct w as [i u [v l] cs]. simpl in *.
  destruct s as [x|x|x|x|x|x|k h|cb]; [..|destruct k|];
    run_method; simpl; rewrite ?Ho; cbv beta iota; simpl;
    try match goal with
        | |- context [store_rate ?x] => destruct (store_rate x)
        | |- context [store_pitch ?x] => destruct (store_pitch x)
        | |- context [store_volume ?x] => destruct (store_volume x)
        end; simpl; rewrite ?Hc; simpl; rewrite ?app_nil_r; try reflexivity.
  by rewrite insert_id.
Qed.

Lemma call_spec {pf : Attributes} (this : loc) (s : setter) (w : world) o c c' :
  instances w !! this = Some o →
  utterances w !! utterance o = Some c →
  assigned s c = Some c' →
  ∃ w', call this s w = Some (Normal this, w')
        ∧ instances w' = instances w
        ∧ utterances w' = <[utterance o := c']> (utterances w)
        ∧ voices (speechSynthesis w') = voices (speechSynthesis w)
        ∧ voiceschanged (speechSynthesis w') =
            voiceschanged (speechSynthesis w) ++ added_listeners this s
        ∧ calls w' = calls w.
Proof.
  intros Ho Hc Ha. rewrite (call_eq this s w o c Ho Hc), Ha.
  eexists. split; [reflexivity|]. by split_and!.
Qed.

Lemma call_throws {pf : Attributes} (this : loc) (s : setter) (w : world) c :
  config this w = Some c → throws s = true →
  call this s w = Some (TypeError, w).
Proof.
  intros (o & Ho & Hc)%config_Some Hs.
  rewrite (call_eq this s w o c Ho Hc).
  by rewrite (proj2 (assigned_throws s c) Hs).
Qed.

(** A setter called on a valid instance that does not throw returns that
    instance and leaves the assigned utterance as its configuration. *)
Lemma call_config {pf : Attributes} (this : loc) (s : setter) (w : world) c c' :
  config this w = Some c →
  assigned s c = Some c' →
  ∃ w', call this s w = Some (Normal this, w')
        ∧ config this w' = Some c'
        ∧ instances w' = instances w.
Proof.
  intros (o & Ho & Hc)%config_Some Ha.
  destruct (call_spec this s w o c c' Ho Hc Ha) as (w' & Hcall & Hi & Hu & _).
  exists w'. split_and!; [done| |done].
  unfold config. rewrite Hi, Ho, Hu. apply lookup_insert_eq.
Qed.

(** The outcome of a chain, in one piece. *)
Lemma chain_eq {pf : Attributes} (this : loc) (ss : list setter) (w : world) o c :
  instances w !! this = Some o →
  utterances w !! utterance o = Some c →
  chain this ss w =
  Some (chain_completion this ss,
        mkWorld (instances w) (<[utterance o := applied ss c]> (utterances w))
          (mkSpeechSynthesis (voices (speechSynthesis w))
             (voiceschanged (speechSynthesis w)
              ++ concat (map (added_listeners this) (made ss))))
          (calls w)).
Proof.
  revert w c. induction ss as [|s ss IH]; intros w c Ho Hc.
  - simpl. rewrite insert_id, app_nil_r by done. by destruct w as [i u [v l] cs].
  - simpl chain. unfold mbind, M_bind. rewrite (call_eq this s w o c Ho Hc).
    unfold chain_completion. simpl.
    destruct (assigned s c) as [c'|] eqn:Ha.
    + destruct (throws s) eqn:Hs.
      { apply (assigned_throws s c) in Hs. rewrite Ha in Hs. done. }
      simpl. rewrite (IH _ c'); simpl; [|done|apply lookup_insert_eq].
      by rewrite insert_insert_eq, <- app_assoc.
    + rewrite (proj1 (assigned_throws s c) Ha). simpl.
      rewrite insert_id, app_nil_r by done. by destruct w as [i u [v l] cs].
Qed.

Lemma chain_config {pf : Attributes} (this : loc) (ss : list setter) (w : world) c :
  config this w = Some c →
  ∃ w', chain this ss w = Some (chain_completion this ss, w')
        ∧ config this w' = Some (applied ss c)
        ∧ instances w' = instances w.
Proof.
  intros (o & Ho & Hc)%config_Some.
  rewrite (chain_eq this ss w o c Ho Hc). eexists. split; [done|].
  split; [|done]. unfold config. simpl. rewrite Ho. apply lookup_insert_eq.
Qed.

(** A setter call in a history: the configuration afterwards, whether the
    call returned or threw. *)
Lemma perform_call_config {pf : Attributes} (this : loc) (s : setter) (w : world) c :
  config this w = Some c →
  ∃ w', perform (ACall this s) w = Some (tt, w')
        ∧ config this w' = Some (default c (assigned s c)).
Proof.
  intros Hc. simpl. unfold mbind, M_bind.
  destruct (assigned s c) as [c'|] eqn:Ha.
  - destruct (call_config this s w c c' Hc Ha) as (w' & -> & Hc' & _).
    by exists w'.
  - rewrite (call_throws this s w c Hc) by by apply assigned_throws in Ha.
    by exists w.
Qed.

Lemma sample_world_config : config 1%positive sample_world = Some sample_utterance.
Proof. reflexivity. Qed.

Lemma sample_world_valid : valid 1%positive sample_world.
Proof. by eexists. Qed.

(** [sample_world] is what the constructor makes of the store without
    objects. *)
Example new_TextToSpeech_sample :
  new_TextToSpeech sample_utterance empty_world = Some (1%positive, sample_world).
Proof. vm_compute. reflexivity. Qed.

(** * Stored values *)




(** * The constructor *)

Lemma new_TextToSpeech_spec (fresh_utterance : SpeechSynthesisUtterance) (w : world) :
  ∃ this u w',
    new_TextToSpeech fresh_utterance w = Some (this, w')
    ∧ instances w !! this = None
    ∧ utterances w !! u = None
    ∧ instances w' = <[this := mkTextToSpeech u]> (instances w)
    ∧ utterances w' = <[u := fresh_utterance]> (utterances w)
    ∧ speechSynthesis w' = speechSynthesis w
    ∧ calls w' = calls w.
Proof.
  eexists _, _, _. split; [reflexivity|]. simpl.
  split_and!; try reflexivity; apply not_elem_of_dom, is_fresh.
Qed.

Lemma new_TextToSpeech_config (fresh_utterance : SpeechSynthesisUtterance) (w : world) :
  ∃ this o w',
    new_TextToSpeech fresh_utterance w = Some (this, w')
    ∧ instances w' !! this = Some o
    ∧ utterances w' !! utterance o = Some fresh_utterance
    ∧ utterances w !! utterance o = None
    ∧ speechSynthesis w' = speechSynthesis w
    ∧ calls w' = calls w
    ∧ ∀ x ox cx, instances w !! x = Some ox →
                 utterances w !! utterance ox = Some cx →
                 x ≠ this ∧ utterance ox ≠ utterance o
                 ∧ instances w' !! x = Some ox
                 ∧ utterances w' !! utterance ox = Some cx.
Proof.
  destruct (new_TextToSpeech_spec fresh_utterance w)
    as (this & u & w' & Hnew & Hi & Hu & Hi' & Hu' & Hs & Hcs).
  exists this, (mkTextToSpeech u), w'. simpl.
  split_and!; [done| | |done|done|done|].
  - rewrite Hi'. apply lookup_insert_eq.
  - rewrite Hu'. apply lookup_insert_eq.
  - intros x ox cx Hx Hcx.
    assert (x ≠ this) by congruence.
    assert (utterance ox ≠ u) by congruence.
    split_and!; [done|done| |].
    + rewrite Hi'. by rewrite lookup_insert_ne.
    + rewrite Hu'. by rewrite lookup_insert_ne.
Qed.

(** * The range invariant *)

Lemma non_NaN_accepted {pf : Attributes} {laws : AttributeLaws pf} (s : setter) :
  non_NaN_argument s = true → throws s = false.
Proof.
  unfold non_NaN_argument.
  destruct s as [x|x|x|x|x|x|k h|cb]; simpl; try done; intros Hx%negb_true_iff.
  - destruct (rate_keeps_range (clamp (num 0) x (num 10))) as (y & -> & _);
      [by apply clamp_in_range | done].
  - destruct (pitch_keeps_range (clamp (num 0) x (num 3))) as (y & -> & _);
      [by apply clamp_in_range | done].
  - destruct (volume_keeps_range (clamp (num 0) x (num 1))) as (y & -> & _);
      [by apply clamp_in_range | done].
Qed.

Lemma NaN_rejected {pf : Attributes} {laws : AttributeLaws pf} (s : setter) :
  non_NaN_argument s = false → throws s = true.
Proof.
  unfold non_NaN_argument.
  destruct s as [x|x|x|x|x|x|k h|cb]; simpl; try done;
    intros Hx%negb_false_iff; destruct x; try done; simpl.
  - by rewrite rate_rejects_NaN.
  - by rewrite pitch_rejects_NaN.
  - by rewrite volume_rejects_NaN.
Qed.

(** What a numeric setter stores is within its range, whatever it is
    called with. *)
Lemma stored_in_range {pf : Attributes} {laws : AttributeLaws pf} (x y : number) :
  (store_rate (clamp (num 0) x (num 10)) = Some y → in_range 0 10 y = true)
  ∧ (store_pitch (clamp (num 0) x (num 3)) = Some y → in_range 0 3 y = true)
  ∧ (store_volume (clamp (num 0) x (num 1)) = Some y → in_range 0 1 y = true).
Proof.
  destruct (isNaN x) eqn:Hx.
  - destruct x; try done. simpl.
    rewrite rate_rejects_NaN, pitch_rejects_NaN, volume_rejects_NaN. done.
  - split_and!; intros Hy.
    + destruct (rate_keeps_range (clamp (num 0) x (num 10))) as (y' & Hy' & ?);
        [by apply clamp_in_range | congruence].
    + destruct (pitch_keeps_range (clamp (num 0) x (num 3))) as (y' & Hy' & ?);
        [by apply clamp_in_range | congruence].
    + destruct (volume_keeps_range (clamp (num 0) x (num 1))) as (y' & Hy' & ?);
        [by apply clamp_in_range | congruence].
Qed.

Lemma assigned_clamped {pf : Attributes} {laws : AttributeLaws pf}
    (s : setter) (c c' : SpeechSynthesisUtterance) :
  assigned s c = Some c' → clamped c = true → clamped c' = true.
Proof.
  unfold clamped. intros Ha Hc.
  apply andb_true_iff in Hc as [Hc Hv]. apply andb_true_iff in Hc as [Hr Hp].
  destruct s as [x|x|x|x|x|x|k h|cb]; [..|destruct k|]; simpl in Ha;
    try (injection Ha as <-; simpl; by rewrite Hr, Hp, Hv).
  - destruct (store_rate _) as [y|] eqn:Hy; [|done]. injection Ha as <-. simpl.
    by rewrite (proj1 (stored_in_range x y) Hy), Hp, Hv.
  - destruct (store_pitch _) as [y|] eqn:Hy; [|done]. injection Ha as <-. simpl.
    by rewrite (proj1 (proj2 (stored_in_range x y)) Hy), Hr, Hv.
  - destruct (store_volume _) as [y|] eqn:Hy; [|done]. injection Ha as <-. simpl.
    by rewrite (proj2 (proj2 (stored_in_range x y)) Hy), Hr, Hp.
Qed.

Lemma perform_all_cons {pf : Attributes} (a : action) (acts : list action)
    (w w1 : world) :
  perform a w = Some (tt, w1) → perform_all (a :: acts) w = perform_all acts w1.
Proof.
  intros H. change (perform_all (a :: acts) w)
    with (match perform a w with
          | Some (x, w') => perform_all acts w'
          | None => None
          end).
  by rewrite H.
Qed.

Lemma calls_on_clamped {pf : Attributes} {laws : AttributeLaws pf}
    (this : loc) (ss : list setter) (w : world) c :
  config this w = Some c → clamped c = true →
  ∃ w' c', perform_all (calls_on this ss) w = Some (tt, w')
           ∧ config this w' = Some c' ∧ clamped c' = true.
Proof.
  revert w c. induction ss as [|s ss IH]; intros w c Hc Hcl.
  - by exists w, c.
  - destruct (perform_call_config this s w c Hc) as (w1 & Hperf & Hc1).
    destruct (IH w1 _ Hc1) as (w' & c' & Hall & Hc' & Hcl').
    { destruct (assigned s c) as [c1|] eqn:Ha; simpl; [|done].
      by apply (assigned_clamped s c c1). }
    exists w', c'. split_and!; [|done|done].
    change (calls_on this (s :: ss)) with (ACall this s :: calls_on this ss).
    by rewrite (perform_all_cons _ _ w w1 Hperf).
Qed.

(** C3. On a platform whose utterance rejects NaN and keeps a number
    within a range within that range, the rate, pitch and volume of the
    configuration are within [[0, 10]], [[0, 3]] and [[0, 1]] after any
    setter call: for an instance the constructor made, after any sequence of
    setter calls, returned or thrown; from any configuration within the
    ranges, after any one call; and a numeric setter that returns has put
    its attribute within its range whatever was stored before. *)
Theorem clamped_invariant {pf : Attributes} {laws : AttributeLaws pf} (w : world) :
  (∃ this w0,
     new_TextToSpeech new_SpeechSynthesisUtterance w = Some (this, w0)
     ∧ ∀ ss, ∃ w', perform_all (calls_on this ss) w0 = Some (tt, w')
                   ∧ clamped <$> config this w' = Some true)
  ∧ (∀ this c s, config this w = Some c → clamped c = true →
       ∃ r w', call this s w = Some (r, w')
               ∧ clamped <$> config this w' = Some true)
  ∧ (∀ this v w', valid this w →
       (setVoiceRate this v w = Some (Normal this, w') →
        in_range 0 10 <$> (rate <$> config this w') = Some true)
       ∧ (setVoicePitch this v w = Some (Normal this, w') →
          in_range 0 3 <$> (pitch <$> config this w') = Some true)
       ∧ (setVolume this v w = Some (Normal this, w') →
          in_range 0 1 <$> (volume <$> config this w') = Some true)).
Proof.
  split_and!.
  - destruct (new_TextToSpeech_config new_SpeechSynthesisUtterance w)
      as (this & o & w0 & Hnew & Ho & Hc & _).
    exists this, w0. split; [done|]. intros ss.
    destruct (calls_on_clamped this ss w0 new_SpeechSynthesisUtterance)
      as (w' & c' & Hall & Hc' & Hcl'); [by apply config_Some; eauto | done |].
    exists w'. split; [done|]. by rewrite Hc', <- Hcl'.
  - intros this c s Hc Hcl.
    destruct (assigned s c) as [c'|] eqn:Ha.
    + destruct (call_config this s w c c' Hc Ha) as (w' & Hcall & Hc' & _).
      exists (Normal this), w'. split; [done|].
      by rewrite Hc', <- (assigned_clamped s c c' Ha Hcl).
    + exists TypeError, w. split.
      * apply (call_throws this s w c Hc). by apply (assigned_throws s c).
      * by rewrite Hc, <- Hcl.
  - intros this v w' [c Hc].
    assert (∀ s, call this s w = Some (Normal this, w') →
                 ∃ c', assigned s c = Some c' ∧ config this w' = Some c') as Hs.
    { intros s Hcall. destruct (assigned s c) as [c'|] eqn:Ha.
      - destruct (call_config this s w c c' Hc Ha) as (w1 & Hcall1 & Hc1 & _).
        exists c'. split; [done|]. congruence.
      - rewrite (call_throws this s w c Hc) in Hcall by by apply (assigned_throws s c).
        done. }
    split_and!; intros Hcall.
    + destruct (Hs (SetVoiceRate v) Hcall) as (c' & Ha & ->). simpl in *.
      destruct (store_rate _) as [y|] eqn:Hy; [|done]. injection Ha as <-. simpl.
      by rewrite (proj1 (stored_in_range v y) Hy).
    + destruct (Hs (SetVoicePitch v) Hcall) as (c' & Ha & ->). simpl in *.
      destruct (store_pitch _) as [y|] eqn:Hy; [|done]. injection Ha as <-. simpl.
      by rewrite (proj1 (proj2 (stored_in_range v y)) Hy).
    + destruct (Hs (SetVolume v) Hcall) as (c' & Ha & ->). simpl in *.
      destruct (store_volume _) as [y|] eqn:Hy; [|done]. injection Ha as <-. simpl.
      by rewrite (proj2 (proj2 (stored_in_range v y)) Hy).
Qed.

Lemma clamped_invariant_witness :
  ∃ this w0 w',
    new_TextToSpeech new_SpeechSynthesisUtterance empty_world = Some (this, w0)
    ∧ perform_all (pf := browser)
        (calls_on this [SetVoiceRate (num 99); SetVolume NaN;
                        SetVoicePitch Infinity; SetLanguage "en-US"]) w0
      = Some (tt, w')
    ∧ clamped <$> config this w' = Some true.
Proof.
  destruct (proj1 (clamped_invariant (pf := browser) (laws := browser_laws)
                     empty_world)) as (this & w0 & Hnew & Hall).
  destruct (Hall [SetVoiceRate (num 99); SetVolume NaN;
                  SetVoicePitch Infinity; SetLanguage "en-US"])
    as (w' & Hperf & Hcl).
  by exists this, w0, w'.
Defined.

(** * Chaining *)

Lemma returned_inv (m : M loc) (w w' : world) (r : loc) :
  (x ← m; mret (Normal x)) w = Some (Normal r, w') → m w = Some (r, w').
Proof.
  unfold mbind, M_bind, mret, M_ret.
  destruct (m w) as [[x w1]|]; [|done]. by intros [= <- <-].
Qed.

Lemma chain_completion_normal {pf : Attributes} {laws : AttributeLaws pf}
    (this : loc) (ss : list setter) :
  forallb non_NaN_argument ss = true → chain_completion this ss = Normal this.
Proof.
  intros Hss. unfold chain_completion.
  replace (forallb (λ s, negb (throws s)) ss) with true; [done|].
  symmetry. apply forallb_forall. intros s Hs.
  rewrite forallb_forall in Hss. by rewrite (non_NaN_accepted s (Hss s Hs)).
Qed.

(** C5, as the code has it.  A setter that returns returns the instance it
    was called on: [setLanguage], [setVoiceSpeech], [setVoiceText], every
    [setOn<Kind>] and [setOnVoicesChanged] with every argument;
    [setVoiceRate], [setVoicePitch] and [setVolume] with every number but
    NaN, with which the assignment throws and nothing is returned or
    stored; and every fluent chain of setters without a NaN argument. *)
Theorem setters_return_this {pf : Attributes} {laws : AttributeLaws pf}
    (this : loc) (w : world) :
  valid this w →
  (∀ x, isNaN x = false → returns_normally (setVoiceRate this x) w this)
  ∧ (∀ x, isNaN x = false → returns_normally (setVoicePitch this x) w this)
  ∧ (∀ x, isNaN x = false → returns_normally (setVolume this x) w this)
  ∧ setVoiceRate this NaN w = Some (TypeError, w)
  ∧ setVoicePitch this NaN w = Some (TypeError, w)
  ∧ setVolume this NaN w = Some (TypeError, w)
  ∧ (∀ x, returns (setLanguage this x) w this)
  ∧ (∀ x, returns (setVoiceSpeech this x) w this)
  ∧ (∀ x, returns (setVoiceText this x) w this)
  ∧ (∀ h, returns (setOnBoundary this h) w this)
  ∧ (∀ h, returns (setOnEnd this h) w this)
  ∧ (∀ h, returns (setOnError this h) w this)
  ∧ (∀ h, returns (setOnMark this h) w this)
  ∧ (∀ h, returns (setOnPause this h) w this)
  ∧ (∀ h, returns (setOnResume this h) w this)
  ∧ (∀ h, returns (setOnStart this h) w this)
  ∧ (∀ cb, returns (setOnVoicesChanged this cb) w this)
  ∧ (∀ ss, forallb non_NaN_argument ss = true →
       returns_normally (chain this ss) w this).
Proof.
  intros [c Hc].
  assert (∀ s, non_NaN_argument s = true →
               returns_normally (call this s) w this) as Hcall.
  { intros s Hs. destruct (assigned_accepted s c (non_NaN_accepted s Hs)) as [c' Ha].
    destruct (call_config this s w c c' Hc Ha) as (w' & ? & _). by exists w'. }
  assert (∀ s, non_NaN_argument s = false →
               call this s w = Some (TypeError, w)) as Hthrow.
  { intros s Hs. apply (call_throws this s w c Hc). by apply NaN_rejected. }
  assert (∀ (m : M loc), returns_normally (x ← m; mret (Normal x)) w this →
                         returns m w this) as Hplain.
  { intros m [w' Hm]. exists w'. by apply returned_inv. }
  split_and!.
  - intros x Hx. apply (Hcall (SetVoiceRate x)).
    unfold non_NaN_argument. simpl. by rewrite Hx.
  - intros x Hx. apply (Hcall (SetVoicePitch x)).
    unfold non_NaN_argument. simpl. by rewrite Hx.
  - intros x Hx. apply (Hcall (SetVolume x)).
    unfold non_NaN_argument. simpl. by rewrite Hx.
  - by apply (Hthrow (SetVoiceRate NaN)).
  - by apply (Hthrow (SetVoicePitch NaN)).
  - by apply (Hthrow (SetVolume NaN)).
  - intros x. by apply Hplain, (Hcall (SetLanguage x)).
  - intros x. by apply Hplain, (Hcall (SetVoiceSpeech x)).
  - intros x. by apply Hplain, (Hcall (SetVoiceText x)).
  - intros h. by apply Hplain, (Hcall (SetOn EvBoundary h)).
  - intros h. by apply Hplain, (Hcall (SetOn EvEnd h)).
  - intros h. by apply Hplain, (Hcall (SetOn EvError h)).
  - intros h. by apply Hplain, (Hcall (SetOn EvMark h)).
  - intros h. by apply Hplain, (Hcall (SetOn EvPause h)).
  - intros h. by apply Hplain, (Hcall (SetOn EvResume h)).
  - intros h. by apply Hplain, (Hcall (SetOn EvStart h)).
  - intros cb. by apply Hplain, (Hcall (SetOnVoicesChanged cb)).
  - intros ss Hss. destruct (chain_config this ss w c Hc) as (w' & Hchain & _).
    exists w'. by rewrite Hchain, chain_completion_normal.
Qed.

Lemma setters_return_this_witness :
  returns_normally
    (chain (pf := browser) 1%positive
       [SetVoiceRate (num 1); SetVoiceSpeech voice_en; SetVoiceText "Hello World!"])
    sample_world 1%positive.
Proof.
  apply (setters_return_this (pf := browser) (laws := browser_laws)
           1%positive sample_world sample_world_valid).
  reflexivity.
Defined.

(** C5, as stated, fails at NaN: in the browser [setVoiceRate(NaN)],
    [setVoicePitch(NaN)] and [setVolume(NaN)] throw a TypeError and return
    nothing. *)
Lemma setters_return_this_not_for_NaN :
  setVoiceRate (pf := browser) 1%positive NaN sample_world
  = Some (TypeError, sample_world)
  ∧ setVoicePitch (pf := browser) 1%positive NaN sample_world
    = Some (TypeError, sample_world)
  ∧ setVolume (pf := browser) 1%positive NaN sample_world
    = Some (TypeError, sample_world)
  ∧ ¬ returns_normally (setVoiceRate (pf := browser) 1%positive NaN)
        sample_world 1%positive.
Proof.
  split_and!; try reflexivity. by intros [w' Hw'].
Qed.

(** * Frame *)

Lemma read_assigned {pf : Attributes} (s : setter) (a : attribute)
    (c c' : SpeechSynthesisUtterance) :
  assigned s c = Some c' → attribute_of s ≠ Some a → read a c' = read a c.
Proof.
  intros Ha Hne.
  destruct s as [x|x|x|x|x|x|k h|cb]; [..|destruct k|]; simpl in Ha;
    try (destruct (store_rate _); [|done]);
    try (destruct (store_pitch _); [|done]);
    try (destruct (store_volume _); [|done]);
    injection Ha as <-;
    destruct a as [| | | | | |k']; try reflexivity; try done;
    destruct k'; try reflexivity; done.
Qed.

(** C10. A setter changes no attribute of the utterance but its own, no
    other utterance and no instance: the [utterance] field of every
    instance still holds the reference it held; a call that throws changes
    nothing at all.  That reference is the one of the utterance the
    constructor creates, and it is still the instance's after any chain of
    setter calls. *)
Theorem setters_frame {pf : Attributes} :
  (∀ (this : loc) (s : setter) (w : world) o c,
     instances w !! this = Some o →
     utterances w !! utterance o = Some c →
     ∃ r w' c', call this s w = Some (r, w')
                ∧ (r = Normal this ∨ r = TypeError ∧ w' = w)
                ∧ instances w' = instances w
                ∧ utterances w' !! utterance o = Some c'
                ∧ (∀ a, attribute_of s ≠ Some a → read a c' = read a c)
                ∧ (∀ u, u ≠ utterance o → utterances w' !! u = utterances w !! u))
  ∧ (∀ (fresh_utterance : SpeechSynthesisUtterance) (w : world),
       ∃ this u w0,
         new_TextToSpeech fresh_utterance w = Some (this, w0)
         ∧ utterances w !! u = None
         ∧ instances w0 !! this = Some (mkTextToSpeech u)
         ∧ utterances w0 !! u = Some fresh_utterance
         ∧ ∀ ss, ∃ r w', chain this ss w0 = Some (r, w')
                         ∧ instances w' !! this = Some (mkTextToSpeech u)
                         ∧ is_Some (utterances w' !! u)).
Proof.
  split.
  - intros this s w o c Ho Hc.
    destruct (assigned s c) as [c'|] eqn:Ha.
    + destruct (call_spec this s w o c c' Ho Hc Ha) as (w' & Hcall & Hi & Hu & _).
      exists (Normal this), w', c'. split_and!; [done|by left|done| | |].
      * rewrite Hu. apply lookup_insert_eq.
      * intros a Hne. by apply (read_assigned s a c c').
      * intros u Hne. rewrite Hu. by apply lookup_insert_ne.
    + exists TypeError, w, c. split_and!; [|by right|done..].
      apply (call_throws this s w c); [|by apply (assigned_throws s c)].
      apply config_Some. eauto.
  - intros fresh_utterance w.
    destruct (new_TextToSpeech_spec fresh_utterance w)
      as (this & u & w0 & Hnew & _ & Hu & Hi0 & Hu0 & _).
    assert (instances w0 !! this = Some (mkTextToSpeech u)) as Hthis
      by (rewrite Hi0; apply lookup_insert_eq).
    assert (utterances w0 !! u = Some fresh_utterance) as Hfresh
      by (rewrite Hu0; apply lookup_insert_eq).
    exists this, u, w0. split_and!; [done..|].
    intros ss. rewrite (chain_eq this ss w0 _ fresh_utterance Hthis Hfresh).
    eexists _, _. split; [reflexivity|]. simpl. split; [done|].
    rewrite lookup_insert_eq. by eexists.
Qed.

Lemma setters_frame_witness :
  ∃ r w' c', call (pf := browser) 1%positive (SetVoiceRate (num 4)) sample_world
             = Some (r, w')
             ∧ (r = Normal 1%positive ∨ r = TypeError ∧ w' = sample_world)
             ∧ instances w' = instances sample_world
             ∧ utterances w' !! 1%positive = Some c'
             ∧ (∀ a, Some ARate ≠ Some a → read a c' = read a sample_utterance)
             ∧ (∀ u, u ≠ 1%positive →
                  utterances w' !! u = utterances sample_world !! u).
Proof.
  apply (proj1 (setters_frame (pf := browser)) 1%positive (SetVoiceRate (num 4))
           sample_world (mkTextToSpeech 1%positive) sample_utterance); reflexivity.
Defined.

(** * Utterance event handlers *)

Lemma handler_of_with_handler (k : event_kind) (h : funobj) (c : SpeechSynthesisUtterance) :
  handler_of k (with_handler k h c) = Some h.
Proof. by destruct k. Qed.

Lemma setOn_spec (k : event_kind) (this : loc) (h : funobj) (w : world) o c :
  instances w !! this = Some o →
  utterances w !! utterance o = Some c →
  ∃ w', setOn k this h w = Some (this, w')
        ∧ instances w' = instances w
        ∧ utterances w' = <[utterance o := with_handler k h c]> (utterances w)
        ∧ speechSynthesis w' = speechSynthesis w
        ∧ calls w' = calls w.
Proof.
  intros Ho Hc. destruct k; run_method; rewrite Ho; cbv beta iota; rewrite Hc;
    cbv beta iota; (eexists; split; [reflexivity|]); by split_and!.
Qed.

Lemma raise_spec (k : event_kind) (u : loc) (w : world) c :
  utterances w !! u = Some c →
  ∃ w', raise k u w = Some (tt, w')
        ∧ instances w' = instances w ∧ utterances w' = utterances w
        ∧ speechSynthesis w' = speechSynthesis w
        ∧ calls w' = calls w ++
            match handler_of k c with
            | Some h => [Invoke h (ArgEvent k u)]
            | None => []
            end.
Proof.
  intros Hc. unfold raise. rewrite Hc.
  destruct (handler_of k c) as [h|].
  - eexists; split; [reflexivity|]. by split_and!.
  - exists w. rewrite app_nil_r. by split_and!.
Qed.

(** C6. Called twice for one event kind, [setOn<Kind>] leaves the second
    handler as the handler of that kind, and an event of that kind then
    calls the second handler and nothing else; in every store an event
    calls at most one handler. *)
Theorem handler_overwrite (k : event_kind) (this : loc) (w : world) o c :
  instances w !! this = Some o →
  utterances w !! utterance o = Some c →
  (∀ h1 h2, ∃ w1 w2 w3,
     setOn k this h1 w = Some (this, w1)
     ∧ setOn k this h2 w1 = Some (this, w2)
     ∧ handler_of k <$> config this w2 = Some (Some h2)
     ∧ raise k (utterance o) w2 = Some (tt, w3)
     ∧ calls w3 = calls w ++ [Invoke h2 (ArgEvent k (utterance o))])
  ∧ (∃ w' called, raise k (utterance o) w = Some (tt, w')
                  ∧ calls w' = calls w ++ called ∧ length called ≤ 1).
Proof.
  intros Ho Hc. split.
  - intros h1 h2.
    destruct (setOn_spec k this h1 w o c Ho Hc)
      as (w1 & Hcall1 & Hi1 & Hu1 & _ & Hcalls1).
    assert (utterances w1 !! utterance o = Some (with_handler k h1 c)) as Hc1
      by (rewrite Hu1; apply lookup_insert_eq).
    rewrite <- Hi1 in Ho.
    destruct (setOn_spec k this h2 w1 o _ Ho Hc1)
      as (w2 & Hcall2 & Hi2 & Hu2 & _ & Hcalls2).
    assert (utterances w2 !! utterance o
            = Some (with_handler k h2 (with_handler k h1 c))) as Hc2
      by (rewrite Hu2; apply lookup_insert_eq).
    destruct (raise_spec k (utterance o) w2 _ Hc2) as (w3 & Hraise & _ & _ & _ & Hcalls3).
    exists w1, w2, w3. split_and!; [done|done| |done|].
    + unfold config. rewrite Hi2, Ho, Hc2.
      by rewrite <- (handler_of_with_handler k h2 (with_handler k h1 c)).
    + rewrite Hcalls3, handler_of_with_handler. congruence.
  - destruct (raise_spec k (utterance o) w c Hc) as (w' & Hraise & _ & _ & _ & Hcalls).
    eexists w', _. split_and!; [done|done|].
    destruct (handler_of k c); simpl; lia.
Qed.

Lemma handler_overwrite_witness :
  ∃ w1 w2 w3,
    setOnStart 1%positive 7%positive sample_world = Some (1%positive, w1)
    ∧ setOnStart 1%positive 8%positive w1 = Some (1%positive, w2)
    ∧ onstart <$> config 1%positive w2 = Some (Some 8%positive)
    ∧ raise EvStart 1%positive w2 = Some (tt, w3)
    ∧ calls w3 = [Invoke 8%positive (ArgEvent EvStart 1%positive)].
Proof.
  apply (proj1 (handler_overwrite EvStart 1%positive sample_world
                  (mkTextToSpeech 1%positive) sample_utterance
                  eq_refl eq_refl) 7%positive 8%positive).
Defined.

(** * Voice query *)

Lemma prefix_spec (f s : string) :
  String.prefix f s = true ↔ ∃ post : string, s = f +:+ post.
Proof.
  revert s. induction f as [|a f IH]; intros s.
  - split; [intros _; by exists s | intros _; by destruct s].
  - destruct s as [|b s]; simpl.
    + split; [done | by intros [post ?]].
    + destruct (Ascii.ascii_dec a b) as [->|Hne].
      * rewrite IH. split.
        -- intros [post ->]. by exists post.
        -- intros [post [= ->]]. by exists post.
      * split; [done | intros [post [= ? ?]]; congruence].
Qed.

Lemma includes_spec (s f : string) : includes s f = true ↔ substring_of f s.
Proof.
  unfold substring_of. induction s as [|b s IH]; cbn [includes].
  - rewrite orb_false_r, prefix_spec. split.
    + intros [post ->]. by exists ""%string, post.
    + intros ([|??] & post & H); [by exists post | done].
  - rewrite orb_true_iff, prefix_spec, IH. split.
    + intros [[post ->] | (pre & post & ->)].
      * by exists ""%string, post.
      * by exists (String b pre), post.
    + intros ([|a pre] & post & H).
      * left. by exists post.
      * right. injection H as -> ->. by exists pre, post.
Qed.

#[global] Instance substring_of_dec (f s : string) : Decision (substring_of f s).
Proof.
  refine (cast_if (decide (includes s f = true))); by rewrite <- includes_spec.
Defined.

Lemma substring_of_empty (s : string) : substring_of "" s.
Proof. by exists ""%string, s. Qed.

Lemma filter_includes (f : string) (vs : list SpeechSynthesisVoice) :
  List.filter (λ voice, includes (Voice.lang voice) f) vs
  = filter (λ voice, substring_of f (Voice.lang voice)) vs.
Proof.
  induction vs as [|v vs IH]; [done|].
  simpl. rewrite filter_cons, IH.
  destruct (includes (Voice.lang v) f) eqn:Hv.
  - rewrite decide_True; [done | by apply includes_spec].
  - rewrite decide_False; [done|]. rewrite <- includes_spec. congruence.
Qed.

Lemma filter_all {A} (P : A → Prop) `{!∀ x, Decision (P x)} (l : list A) :
  (∀ x, P x) → filter P l = l.
Proof.
  intros HP. induction l as [|x l IH]; [done|].
  rewrite filter_cons, decide_True by done. by rewrite IH.
Qed.

Lemma getVoices_unfiltered (this : loc) (w : world) :
  getVoices this None w = Some (voices (speechSynthesis w), w).
Proof. reflexivity. Qed.

Lemma getVoices_filtered (this : loc) (f : string) (w : world) :
  getVoices this (Some f) w
  = Some (filter (λ voice, substring_of f (Voice.lang voice))
            (voices (speechSynthesis w)), w).
Proof.
  destruct f as [|a f]; run_method.
  - rewrite filter_all; [done|]. intros v. apply substring_of_empty.
  - by rewrite filter_includes.
Qed.

(** C4. Without a filter [getVoices] returns the engine's catalog as it is;
    with a filter string [f] it returns, in the catalog's order, the voices
    whose language tag has [f] as a substring, character for character; of
    an empty catalog it returns the empty sequence.  The store is left as
    it was. *)
Theorem getVoices_spec (this : loc) (w : world) :
  getVoices this None w = Some (voices (speechSynthesis w), w)
  ∧ (∀ f : string,
       getVoices this (Some f) w
       = Some (filter (λ voice, substring_of f (Voice.lang voice))
                 (voices (speechSynthesis w)), w))
  ∧ (∀ (f : option string) ins utts ls cs,
       let w0 := mkWorld ins utts (mkSpeechSynthesis [] ls) cs in
       getVoices this f w0 = Some ([], w0)).
Proof.
  split_and!.
  - apply getVoices_unfiltered.
  - intros f. apply getVoices_filtered.
  - intros [[|a f]|] ins utts ls cs; reflexivity.
Qed.

(** The match is on the characters as they are: ["en"] selects the voice
    tagged ["en-US"], ["EN"] selects none, ["-"] selects both. *)
Example getVoices_sample :
  getVoices 1%positive (Some "en"%string) sample_world = Some ([voice_en], sample_world)
  ∧ getVoices 1%positive (Some "EN"%string) sample_world = Some ([], sample_world)
  ∧ getVoices 1%positive (Some "-"%string) sample_world
    = Some ([voice_en; voice_fr], sample_world).
Proof. split_and!; reflexivity. Qed.

(** * The [voiceschanged] event *)

Lemma add_calls_nil (w : world) : add_calls [] w = w.
Proof. destruct w. unfold add_calls. simpl. by rewrite app_nil_r. Qed.

Lemma add_calls_app (cs1 cs2 : list invocation) (w : world) :
  add_calls cs2 (add_calls cs1 w) = add_calls (cs1 ++ cs2) w.
Proof. unfold add_calls. simpl. by rewrite app_assoc. Qed.

Lemma run_listeners_spec (ls : list listener) (w : world) :
  run_listeners ls w
  = Some (tt, add_calls
                (map (λ l, Invoke (callback l) (ArgVoices (voices (speechSynthesis w)))) ls)
                w).
Proof.
  revert w. induction ls as [|l ls IH]; intros w; simpl.
  - by rewrite add_calls_nil.
  - unfold mbind, M_bind.
    replace (run_listener l w)
      with (Some (tt, add_calls
                        [Invoke (callback l) (ArgVoices (voices (speechSynthesis w)))] w))
      by reflexivity.
    rewrite IH. by rewrite add_calls_app.
Qed.

Lemma fire_voiceschanged_spec (w : world) :
  fire_voiceschanged w = Some (tt, add_calls (notifications w) w).
Proof. apply run_listeners_spec. Qed.

(** Listeners are only ever added, at the end. *)
Lemma call_listeners {pf : Attributes} (this : loc) (r : completion loc)
    (s : setter) (w w' : world) :
  call this s w = Some (r, w') →
  voiceschanged (speechSynthesis w')
  = voiceschanged (speechSynthesis w) ++ added_listeners this s
  ∧ calls w' = calls w.
Proof.
  destruct s as [x|x|x|x|x|x|k h|cb]; [..|destruct k|]; run_method;
    try (destruct (instances w !! this) as [o|]; [cbv beta iota|done]);
    try match goal with
        | |- context [store_rate ?x] => destruct (store_rate x)
        | |- context [store_pitch ?x] => destruct (store_pitch x)
        | |- context [store_volume ?x] => destruct (store_volume x)
        end; cbv beta iota;
    try (destruct (utterances w !! utterance o) as [c|]; [cbv beta iota|done]);
    intros [= <- <-]; simpl; by rewrite ?app_nil_r.
Qed.

Lemma perform_listeners {pf : Attributes} (a : action) (w w' : world) :
  perform a w = Some (tt, w') →
  ∃ later, voiceschanged (speechSynthesis w')
           = voiceschanged (speechSynthesis w) ++ later.
Proof.
  destruct a as [fresh|this s|this f|vs| |k u]; simpl.
  - intros [= <-]. exists []. simpl. by rewrite app_nil_r.
  - unfold mbind, M_bind.
    destruct (call this s w) as [[r w1]|] eqn:Hcall; [|done].
    intros [= <-]. eexists. by eapply (call_listeners this r s w w1).
  - unfold mbind, M_bind.
    destruct f as [f|].
    + rewrite getVoices_filtered. intros [= <-].
      exists []. by rewrite app_nil_r.
    + rewrite getVoices_unfiltered. intros [= <-].
      exists []. by rewrite app_nil_r.
  - intros [= <-]. exists []. simpl. by rewrite app_nil_r.
  - rewrite fire_voiceschanged_spec. intros [= <-]. exists []. simpl.
    by rewrite app_nil_r.
  - unfold raise. destruct (utterances w !! u) as [c|]; [|done].
    destruct (handler_of k c); intros [= <-]; exists []; simpl; by rewrite app_nil_r.
Qed.

Lemma perform_all_listeners {pf : Attributes} (acts : list action) (w w' : world) :
  perform_all acts w = Some (tt, w') →
  ∃ later, voiceschanged (speechSynthesis w')
           = voiceschanged (speechSynthesis w) ++ later.
Proof.
  revert w. induction acts as [|a acts IH]; intros w; simpl.
  - intros [= <-]. exists []. by rewrite app_nil_r.
  - unfold mbind, M_bind.
    destruct (perform a w) as [[[] w1]|] eqn:Ha; [|done].
    intros Hrest. apply perform_listeners in Ha as [l1 H1].
    apply IH in Hrest as [l2 H2]. exists (l1 ++ l2).
    by rewrite H2, H1, app_assoc.
Qed.

Lemma setOnVoicesChanged_spec (this : loc) (cb : funobj) (w : world) :
  ∃ w', setOnVoicesChanged this cb w = Some (this, w')
        ∧ instances w' = instances w ∧ utterances w' = utterances w
        ∧ voices (speechSynthesis w') = voices (speechSynthesis w)
        ∧ voiceschanged (speechSynthesis w')
          = voiceschanged (speechSynthesis w) ++ [mkListener cb this]
        ∧ calls w' = calls w.
Proof. eexists. split; [reflexivity|]. by split_and!. Qed.

(** C7. Once [setOnVoicesChanged(callback)] has been called, whatever the
    caller and the engine do afterwards, a firing of [voiceschanged] calls
    [callback] with what [getVoices()] returns at that moment: the engine's
    catalog of that moment, unfiltered. *)
Theorem voiceschanged_callback {pf : Attributes} (this : loc) (cb : funobj) (w : world) :
  ∃ w1, setOnVoicesChanged this cb w = Some (this, w1)
        ∧ ∀ acts w2, perform_all acts w1 = Some (tt, w2) →
            ∃ w3 before after,
              fire_voiceschanged w2 = Some (tt, w3)
              ∧ getVoices this None w2 = Some (voices (speechSynthesis w2), w2)
              ∧ calls w3 = calls w2 ++ before
                             ++ [Invoke cb (ArgVoices (voices (speechSynthesis w2)))]
                             ++ after.
Proof.
  destruct (setOnVoicesChanged_spec this cb w) as (w1 & Hset & _ & _ & _ & Hl & _).
  exists w1. split; [done|]. intros acts w2 Hacts.
  apply perform_all_listeners in Hacts as [later Hlater].
  rewrite Hl in Hlater.
  eexists _, _, _. split_and!.
  - apply fire_voiceschanged_spec.
  - reflexivity.
  - simpl. f_equal. unfold notifications.
    rewrite Hlater, !map_app. simpl. by rewrite <- app_assoc.
Qed.

Lemma voiceschanged_callback_witness :
  ∃ w1 w2 w3 before after,
    setOnVoicesChanged 1%positive 7%positive sample_world = Some (1%positive, w1)
    ∧ perform_all (pf := browser)
        [ACall 1%positive (SetVoiceRate (num 2)); ASetVoices [voice_fr]] w1
      = Some (tt, w2)
    ∧ fire_voiceschanged w2 = Some (tt, w3)
    ∧ calls w3 = before ++ [Invoke 7%positive (ArgVoices [voice_fr])] ++ after.
Proof.
  destruct (voiceschanged_callback (pf := browser) 1%positive 7%positive sample_world)
    as (w1 & Hset & Hfire).
  injection Hset as <-.
  destruct (Hfire [ACall 1%positive (SetVoiceRate (num 2)); ASetVoices [voice_fr]]
              _ eq_refl) as (w3 & before & after & Hw3 & _ & Hcalls).
  eexists _, _, w3, before, after.
  split_and!; [reflexivity | reflexivity | exact Hw3 | exact Hcalls].
Defined.

Lemma chain_cons {pf : Attributes} (this : loc) (s : setter) (ss : list setter)
    (w w' : world) :
  call this s w = Some (Normal this, w') → chain this (s :: ss) w = chain this ss w'.
Proof. intros H. simpl. unfold mbind, M_bind. by rewrite H. Qed.

Lemma chain_setOnVoicesChanged {pf : Attributes} (this : loc) (cbs : list funobj)
    (w : world) :
  ∃ w', chain this (map SetOnVoicesChanged cbs) w = Some (Normal this, w')
        ∧ voiceschanged (speechSynthesis w')
          = voiceschanged (speechSynthesis w) ++ map (λ cb, mkListener cb this) cbs
        ∧ calls w' = calls w.
Proof.
  revert w. induction cbs as [|cb cbs IH]; intros w.
  - exists w. rewrite app_nil_r. by split_and!.
  - destruct (setOnVoicesChanged_spec this cb w) as (w1 & Hset & _ & _ & _ & Hl & Hc).
    destruct (IH w1) as (w2 & Hchain & Hl2 & Hc2).
    exists w2. split_and!.
    + simpl map. rewrite (chain_cons this (SetOnVoicesChanged cb) _ w w1); [done|].
      simpl. unfold mbind, M_bind. by rewrite Hset.
    + rewrite Hl2, Hl. simpl. by rewrite <- app_assoc.
    + congruence.
Qed.

(** C9. Calls of [setOnVoicesChanged] accumulate: after calls with the
    callbacks [cbs], and whatever happens afterwards, a firing of
    [voiceschanged] calls the callbacks registered before, then every
    callback of [cbs], in order and as often as it was passed, then those
    registered later, each with the catalog of that moment. *)
Theorem voiceschanged_accumulates {pf : Attributes} (this : loc) (cbs : list funobj)
    (w : world) :
  ∃ w1, chain this (map SetOnVoicesChanged cbs) w = Some (Normal this, w1)
        ∧ ∀ acts w2, perform_all acts w1 = Some (tt, w2) →
            ∃ w3 later,
              fire_voiceschanged w2 = Some (tt, w3)
              ∧ calls w3 =
                  calls w2
                  ++ map (λ l, Invoke (callback l) (ArgVoices (voices (speechSynthesis w2))))
                       (voiceschanged (speechSynthesis w))
                  ++ map (λ cb, Invoke cb (ArgVoices (voices (speechSynthesis w2)))) cbs
                  ++ map (λ l, Invoke (callback l) (ArgVoices (voices (speechSynthesis w2))))
                       later.
Proof.
  destruct (chain_setOnVoicesChanged this cbs w) as (w1 & Hchain & Hl & _).
  exists w1. split; [done|]. intros acts w2 Hacts.
  apply perform_all_listeners in Hacts as [later Hlater].
  rewrite Hl in Hlater.
  eexists _, later. split; [apply fire_voiceschanged_spec|].
  simpl. f_equal. unfold notifications.
  rewrite Hlater, !map_app, map_map. simpl. by rewrite <- app_assoc.
Qed.

Lemma voiceschanged_accumulates_witness :
  ∃ w2 w3,
    perform_all (pf := browser)
                [ACall 1%positive (SetOnVoicesChanged 7%positive);
                 ACall 1%positive (SetOnVoicesChanged 8%positive);
                 ACall 1%positive (SetOnVoicesChanged 7%positive);
                 ASetVoices [voice_fr]] sample_world = Some (tt, w2)
    ∧ fire_voiceschanged w2 = Some (tt, w3)
    ∧ calls w3 = [Invoke 7%positive (ArgVoices [voice_fr]);
                  Invoke 8%positive (ArgVoices [voice_fr]);
                  Invoke 7%positive (ArgVoices [voice_fr])].
Proof.
  destruct (voiceschanged_accumulates (pf := browser) 1%positive
              [7%positive; 8%positive; 7%positive] sample_world)
    as (w1 & Hchain & Hfire).
  injection Hchain as <-.
  destruct (Hfire [ASetVoices [voice_fr]] _ eq_refl) as (w3 & later & Hw3 & Hcalls).
  eexists _, w3. split_and!; [reflexivity | exact Hw3 |].
  injection Hw3 as <-. reflexivity.
Defined.

(** * Further properties of [clamp] *)

Ltac split_decides :=
  repeat (match goal with
          | |- context [bool_decide ?P] => destruct (bool_decide P) eqn:?
          end; simpl).

Ltac qc_order :=
  repeat match goal with
  | H : bool_decide _ = true |- _ => apply bool_decide_eq_true_1 in H
  | H : bool_decide _ = false |- _ => apply bool_decide_eq_false_1 in H
  end;
  unfold Qclt, Qcle in *;
  first [ reflexivity | exfalso; lra | f_equal; apply Qc_is_canon; lra ].

(** X1. [clamp] returns NaN exactly when one of its three arguments is
    NaN: a NaN bound poisons the result as a NaN value does. *)
Theorem clamp_NaN_iff (min value max : number) :
  isNaN (clamp min value max) = isNaN min || isNaN value || isNaN max.
Proof.
  destruct min, value, max; unfold clamp, Math_max, Math_min; simpl;
    try reflexivity; split_decides; reflexivity.
Qed.

(** X2. [clamp] never makes up a number: its result is always one of its
    three arguments. *)
Theorem clamp_selects_argument (min value max : number) :
  clamp min value max = min ∨ clamp min value max = value
  ∨ clamp min value max = max.
Proof.
  destruct min, value, max; unfold clamp, Math_max, Math_min; simpl;
    auto; split_decides; auto.
Qed.

(** X3. [clamp] is idempotent in its value, for all bounds and values, NaN,
    infinities and crossed bounds included. *)
Theorem clamp_idempotent (min value max : number) :
  clamp min (clamp min value max) max = clamp min value max.
Proof.
  destruct min, value, max; unfold clamp, Math_max, Math_min; simpl;
    try reflexivity; split_decides; qc_order.
Qed.

(** X4. Between bounds that are not NaN, [clamp] keeps the order of the
    values it is given. *)
Theorem clamp_monotone (min max v1 v2 : number) :
  isNaN min = false → isNaN max = false →
  num_le v1 v2 = true →
  num_le (clamp min v1 max) (clamp min v2 max) = true.
Proof.
  destruct min, max, v1, v2; try discriminate; intros _ _;
    unfold clamp, Math_max, Math_min, num_le; simpl; try done;
    split_decides; try done; intros; qc_order.
Qed.

Lemma clamp_monotone_witness :
  num_le (clamp (num 0) (num (-3)) (num 10)) (clamp (num 0) (num 4) (num 10)) = true
  ∧ num_le (clamp (num 0) (num 4) (num 10)) (clamp (num 0) Infinity (num 10)) = true.
Proof.
  split; apply clamp_monotone; reflexivity.
Defined.

(** * Further properties of the setters *)

(** X5. An infinite argument never reaches the utterance: each numeric
    setter called with [Infinity] is the same call as with its upper bound
    (10, 3, 1), and with [-Infinity] the same call as with 0, on every
    platform; so it returns where NaN throws. *)
Theorem setters_clamp_infinities {pf : Attributes} (this : loc) (w : world) :
  setVoiceRate this Infinity w = setVoiceRate this (num 10) w
  ∧ setVoicePitch this Infinity w = setVoicePitch this (num 3) w
  ∧ setVolume this Infinity w = setVolume this (num 1) w
  ∧ setVoiceRate this NegInfinity w = setVoiceRate this (num 0) w
  ∧ setVoicePitch this NegInfinity w = setVoicePitch this (num 0) w
  ∧ setVolume this NegInfinity w = setVolume this (num 0) w
  ∧ (AttributeLaws pf → valid this w →
     returns_normally (setVoiceRate this Infinity) w this
     ∧ returns_normally (setVoicePitch this Infinity) w this
     ∧ returns_normally (setVolume this Infinity) w this
     ∧ returns_normally (setVoiceRate this NegInfinity) w this
     ∧ returns_normally (setVoicePitch this NegInfinity) w this
     ∧ returns_normally (setVolume this NegInfinity) w this).
Proof.
  split_and!; try reflexivity.
  intros laws [c Hc].
  assert (∀ s, non_NaN_argument s = true →
               returns_normally (call this s) w this) as Hcall.
  { intros s Hs. destruct (assigned_accepted s c (non_NaN_accepted s Hs)) as [c' Ha].
    destruct (call_config this s w c c' Hc Ha) as (w' & ? & _). by exists w'. }
  split_and!.
  - by apply (Hcall (SetVoiceRate Infinity)).
  - by apply (Hcall (SetVoicePitch Infinity)).
  - by apply (Hcall (SetVolume Infinity)).
  - by apply (Hcall (SetVoiceRate NegInfinity)).
  - by apply (Hcall (SetVoicePitch NegInfinity)).
  - by apply (Hcall (SetVolume NegInfinity)).
Qed.

Lemma setters_clamp_infinities_witness :
  returns_normally (setVolume (pf := browser) 1%positive Infinity)
    sample_world 1%positive.
Proof.
  apply (proj2 (proj2 (proj2 (proj2 (proj2 (proj2
           (setters_clamp_infinities (pf := browser) 1%positive sample_world))))))
           browser_laws sample_world_valid).
Defined.

(** X6. Writing back a stored value changes nothing: when the stored rate
    is within its range and is a number the utterance keeps as it is, as
    every number it stored itself is, [setVoiceRate] with it returns the
    instance and leaves the whole store as it is; likewise [setVoicePitch]
    and [setVolume]. *)
Theorem setters_write_back {pf : Attributes} (this : loc) (w : world)
    (c : SpeechSynthesisUtterance) :
  config this w = Some c →
  (in_range 0 10 (rate c) = true → store_rate (rate c) = Some (rate c) →
   setVoiceRate this (rate c) w = Some (Normal this, w))
  ∧ (in_range 0 3 (pitch c) = true → store_pitch (pitch c) = Some (pitch c) →
     setVoicePitch this (pitch c) w = Some (Normal this, w))
  ∧ (in_range 0 1 (volume c) = true → store_volume (volume c) = Some (volume c) →
     setVolume this (volume c) w = Some (Normal this, w)).
Proof.
  intros Hc. apply config_Some in Hc as (o & Ho & Hc).
  assert (∀ s, added_listeners this s = [] → assigned s c = Some c →
               call this s w = Some (Normal this, w)) as Hsame.
  { intros s Hl Hs. rewrite (call_eq this s w o c Ho Hc), Hs, Hl, insert_id by done.
    rewrite app_nil_r. by destruct w as [i u [v l] cs]. }
  split_and!; intros (q & Hq & Hlo & Hhi)%in_range_fin Hkept.
  - apply (Hsame (SetVoiceRate (rate c))); [done|]. simpl.
    replace (clamp (num 0) (rate c) (num 10)) with (rate c)
      by (rewrite Hq; unfold num; by rewrite clamp_inside).
    rewrite Hkept. simpl. by destruct c.
  - apply (Hsame (SetVoicePitch (pitch c))); [done|]. simpl.
    replace (clamp (num 0) (pitch c) (num 3)) with (pitch c)
      by (rewrite Hq; unfold num; by rewrite clamp_inside).
    rewrite Hkept. simpl. by destruct c.
  - apply (Hsame (SetVolume (volume c))); [done|]. simpl.
    replace (clamp (num 0) (volume c) (num 1)) with (volume c)
      by (rewrite Hq; unfold num; by rewrite clamp_inside).
    rewrite Hkept. simpl. by destruct c.
Qed.

Lemma setters_write_back_witness :
  setVoiceRate (pf := browser) 1%positive (num 1) sample_world
  = Some (Normal 1%positive, sample_world).
Proof.
  apply (proj1 (setters_write_back (pf := browser) 1%positive sample_world
                  sample_utterance sample_world_config)).
  - reflexivity.
  - simpl. f_equal. unfold num. f_equal. apply Qc_is_canon. reflexivity.
Defined.

Lemma assigned_overwrite {pf : Attributes} (s1 s2 : setter)
    (c c1 : SpeechSynthesisUtterance) :
  attribute_of s1 = attribute_of s2 → attribute_of s2 ≠ None →
  assigned s1 c = Some c1 →
  assigned s2 c1 = assigned s2 c.
Proof.
  destruct s1 as [x|x|x|x|x|x|k h|cb]; [..|destruct k|];
    (destruct s2 as [y|y|y|y|y|y|k' h'|cb']; [..|destruct k'|]);
    simpl; intros Heq Hne Ha; try discriminate; try done;
    try (destruct (store_rate (clamp _ x _)); [|done]);
    try (destruct (store_pitch (clamp _ x _)); [|done]);
    try (destruct (store_volume (clamp _ x _)); [|done]);
    injection Ha as <-;
    try (by destruct (store_rate _));
    try (by destruct (store_pitch _));
    try (by destruct (store_volume _)); done.
Qed.

Lemma assigned_commute {pf : Attributes} (s1 s2 : setter)
    (c c1 c2 : SpeechSynthesisUtterance) :
  attribute_of s1 ≠ attribute_of s2 →
  assigned s1 c = Some c1 → assigned s2 c = Some c2 →
  ∃ c', assigned s2 c1 = Some c' ∧ assigned s1 c2 = Some c'.
Proof.
  destruct s1 as [x|x|x|x|x|x|k h|cb]; [..|destruct k|];
    (destruct s2 as [y|y|y|y|y|y|k' h'|cb']; [..|destruct k'|]);
    simpl; intros Hne H1 H2; try done;
    try (destruct (store_rate _); [|done]);
    try (destruct (store_pitch _); [|done]);
    try (destruct (store_volume _); [|done]);
    injection H1 as <-; injection H2 as <-; by eexists.
Qed.

Lemma added_listeners_attribute (this : loc) (s : setter) :
  attribute_of s ≠ None → added_listeners this s = [].
Proof. by destruct s. Qed.

Lemma chain_two {pf : Attributes} (this : loc) (s1 s2 : setter) (w : world) o c c1 c2 :
  instances w !! this = Some o →
  utterances w !! utterance o = Some c →
  assigned s1 c = Some c1 → assigned s2 c1 = Some c2 →
  chain this [s1; s2] w =
  Some (Normal this,
        mkWorld (instances w) (<[utterance o := c2]> (utterances w))
          (mkSpeechSynthesis (voices (speechSynthesis w))
             (voiceschanged (speechSynthesis w)
              ++ added_listeners this s1 ++ added_listeners this s2))
          (calls w)).
Proof.
  intros Ho Hc H1 H2. rewrite (chain_eq this _ w o c Ho Hc).
  unfold chain_completion. simpl. rewrite H1, H2.
  destruct (throws s1) eqn:Ht1.
  { apply (assigned_throws s1 c) in Ht1. congruence. }
  destruct (throws s2) eqn:Ht2.
  { apply (assigned_throws s2 c1) in Ht2. congruence. }
  simpl. by rewrite app_nil_r.
Qed.

(** X7. The last write wins: of two setter calls for the same attribute
    that both return, the first leaves no trace in the store.  In
    particular calling a setter twice with the same accepted argument is
    calling it once. *)
Theorem setters_last_write_wins {pf : Attributes} (this : loc) (s1 s2 : setter)
    (w : world) :
  valid this w →
  attribute_of s1 = attribute_of s2 → attribute_of s2 ≠ None →
  throws s1 = false → throws s2 = false →
  chain this [s1; s2] w = chain this [s2] w.
Proof.
  intros [c (o & Ho & Hc)%config_Some] Heq Hne Ht1 Ht2.
  destruct (assigned_accepted s1 c Ht1) as [c1 H1].
  destruct (assigned_accepted s2 c Ht2) as [c2 H2].
  assert (assigned s2 c1 = Some c2) as H21
    by by rewrite (assigned_overwrite s1 s2 c c1 Heq Hne H1).
  rewrite (chain_two this s1 s2 w o c c1 c2 Ho Hc H1 H21).
  rewrite (chain_eq this [s2] w o c Ho Hc).
  unfold chain_completion. simpl. rewrite H2, Ht2. simpl.
  rewrite (added_listeners_attribute this s2 Hne).
  rewrite (added_listeners_attribute this s1) by by rewrite Heq.
  done.
Qed.

Lemma setters_last_write_wins_witness :
  chain (pf := browser) 1%positive [SetVoiceRate (num 99); SetVoiceRate (num 4)]
    sample_world
  = chain (pf := browser) 1%positive [SetVoiceRate (num 4)] sample_world.
Proof.
  apply setters_last_write_wins;
    [apply sample_world_valid | reflexivity | discriminate | reflexivity | reflexivity].
Defined.

(** X8. Setter calls for different attributes that both return commute:
    the order of the calls in a fluent chain does not show in the store. *)
Theorem setters_commute {pf : Attributes} (this : loc) (s1 s2 : setter) (w : world) :
  valid this w →
  attribute_of s1 ≠ attribute_of s2 →
  throws s1 = false → throws s2 = false →
  chain this [s1; s2] w = chain this [s2; s1] w.
Proof.
  intros [c (o & Ho & Hc)%config_Some] Hne Ht1 Ht2.
  destruct (assigned_accepted s1 c Ht1) as [c1 H1].
  destruct (assigned_accepted s2 c Ht2) as [c2 H2].
  destruct (assigned_commute s1 s2 c c1 c2 Hne H1 H2) as (c' & H12 & H21).
  rewrite (chain_two this s1 s2 w o c c1 c' Ho Hc H1 H12).
  rewrite (chain_two this s2 s1 w o c c2 c' Ho Hc H2 H21).
  assert (added_listeners this s1 = [] ∨ added_listeners this s2 = []) as Hl.
  { destruct s1, s2; simpl; auto. done. }
  destruct Hl as [-> | ->]; by rewrite ?app_nil_r.
Qed.

Lemma setters_commute_witness :
  chain (pf := browser) 1%positive [SetVoiceRate (num 2); SetVoiceText "Hello"]
    sample_world
  = chain (pf := browser) 1%positive [SetVoiceText "Hello"; SetVoiceRate (num 2)]
      sample_world.
Proof.
  apply setters_commute; [apply sample_world_valid | discriminate | reflexivity..].
Defined.

(** What throws keeps two such chains apart: with a first call that throws
    the second is not made, with a second call that throws the first has
    been made. *)
Example setters_order_shows_with_NaN :
  chain (pf := browser) 1%positive [SetVoiceRate NaN; SetVoiceText "Hello"] sample_world
  = Some (TypeError, sample_world)
  ∧ ∃ w', chain (pf := browser) 1%positive [SetVoiceText "Hello"; SetVoiceRate NaN]
            sample_world = Some (TypeError, w')
          ∧ text <$> config 1%positive w' = Some "Hello"%string.
Proof. split; [reflexivity|]. eexists. split; reflexivity. Qed.

(** * Instances *)

(** X9. The constructor disturbs nothing: every instance that existed keeps
    its configuration, the new instance is a different one whose
    configuration is the fresh utterance, and no listener is added and no
    caller function called. *)
Theorem constructor_preserves (fresh_utterance : SpeechSynthesisUtterance)
    (w : world) (this : loc) (c : SpeechSynthesisUtterance) :
  config this w = Some c →
  ∃ new w', new_TextToSpeech fresh_utterance w = Some (new, w')
            ∧ new ≠ this
            ∧ config this w' = Some c
            ∧ config new w' = Some fresh_utterance
            ∧ speechSynthesis w' = speechSynthesis w
            ∧ calls w' = calls w.
Proof.
  intros (o & Ho & Hc)%config_Some.
  destruct (new_TextToSpeech_config fresh_utterance w)
    as (new & on & w' & Hnew & Hon & Hcn & _ & Hs & Hcs & Hold).
  destruct (Hold this o c Ho Hc) as (Hne & _ & Ho' & Hc').
  exists new, w'. split_and!; [done|done| | |done|done].
  - apply config_Some. eauto.
  - apply config_Some. eauto.
Qed.

Lemma constructor_preserves_witness :
  ∃ new w', new_TextToSpeech sample_utterance sample_world = Some (new, w')
            ∧ new ≠ 1%positive
            ∧ config 1%positive w' = Some sample_utterance
            ∧ config new w' = Some sample_utterance
            ∧ speechSynthesis w' = speechSynthesis sample_world
            ∧ calls w' = calls sample_world.
Proof.
  apply (constructor_preserves sample_utterance sample_world 1%positive
           sample_utterance sample_world_config).
Defined.

(** X10. Two instances do not share their configuration: of two instances
    made one after the other, whatever chain of setters is called on one,
    returning or throwing, the configuration of the other stays the
    utterance it was made with. *)
Theorem instances_isolated {pf : Attributes} (fa fb : SpeechSynthesisUtterance)
    (w : world) :
  ∃ a b w1 w2,
    new_TextToSpeech fa w = Some (a, w1)
    ∧ new_TextToSpeech fb w1 = Some (b, w2)
    ∧ a ≠ b
    ∧ ∀ ss,
        (∃ r w3, chain a ss w2 = Some (r, w3)
                 ∧ config a w3 = Some (applied ss fa)
                 ∧ config b w3 = Some fb)
        ∧ (∃ r w3, chain b ss w2 = Some (r, w3)
                   ∧ config b w3 = Some (applied ss fb)
                   ∧ config a w3 = Some fa).
Proof.
  destruct (new_TextToSpeech_config fa w)
    as (a & oa & w1 & Hnewa & Hoa & Hca & _ & _ & _ & _).
  destruct (new_TextToSpeech_config fb w1)
    as (b & ob & w2 & Hnewb & Hob & Hcb & _ & _ & _ & Hold).
  destruct (Hold a oa fa Hoa Hca) as (Hne & Hu & Hoa2 & Hca2).
  exists a, b, w1, w2. split_and!; [done|done|done|].
  intros ss. split.
  - eexists _, _. split; [apply (chain_eq a ss w2 oa fa Hoa2 Hca2)|].
    unfold config. simpl. rewrite Hoa2, Hob.
    by rewrite lookup_insert_eq, lookup_insert_ne.
  - eexists _, _. split; [apply (chain_eq b ss w2 ob fb Hob Hcb)|].
    unfold config. simpl. rewrite Hoa2, Hob.
    by rewrite lookup_insert_eq, lookup_insert_ne.
Qed.

(** * Further properties of the voice query *)

Lemma append_assoc (a b c : string) : (a +:+ b) +:+ c = a +:+ b +:+ c.
Proof.
  induction a as [|x a IH]; [done|].
  change (String x ((a +:+ b) +:+ c) = String x (a +:+ b +:+ c)). by f_equal.
Qed.

Lemma length_append (a b : string) :
  String.length (a +:+ b) = String.length a + String.length b.
Proof.
  induction a as [|x a IH]; [done|].
  change (S (String.length (a +:+ b)) = S (String.length a + String.length b)).
  by f_equal.
Qed.

Lemma substring_of_trans (f g s : string) :
  substring_of f g → substring_of g s → substring_of f s.
Proof.
  intros (pre1 & post1 & ->) (pre2 & post2 & ->).
  exists (pre2 +:+ pre1), (post1 +:+ post2).
  by rewrite !append_assoc.
Qed.

Lemma substring_of_length (f s : string) :
  substring_of f s → String.length f ≤ String.length s.
Proof. intros (pre & post & ->). rewrite !length_append. lia. Qed.

Lemma filter_sublist_impl {A} (P Q : A → Prop)
    `{!∀ x, Decision (P x)} `{!∀ x, Decision (Q x)} (l : list A) :
  (∀ x, P x → Q x) → filter P l `sublist_of` filter Q l.
Proof.
  intros HPQ. induction l as [|x l IH]; [done|].
  rewrite !filter_cons. destruct (decide (P x)) as [HP|HP].
  - rewrite decide_True by auto. by apply sublist_skip.
  - destruct (decide (Q x)); [by apply sublist_cons | done].
Qed.

Lemma filter_none {A} (P : A → Prop) `{!∀ x, Decision (P x)} (l : list A) :
  Forall (λ x, ¬ P x) l → filter P l = [].
Proof.
  induction 1 as [|x l Hx _ IH]; [done|].
  by rewrite filter_cons, decide_False.
Qed.

(** X11. Narrowing the filter narrows the result: when the filter [f] occurs
    in the filter [g], the voices [getVoices(g)] returns are a subsequence
    of those [getVoices(f)] returns, which are a subsequence of the
    catalog. *)
Theorem getVoices_narrowing (this : loc) (f g : string) (w : world) :
  substring_of f g →
  ∃ vf vg, getVoices this (Some f) w = Some (vf, w)
           ∧ getVoices this (Some g) w = Some (vg, w)
           ∧ vg `sublist_of` vf
           ∧ vf `sublist_of` voices (speechSynthesis w).
Proof.
  intros Hfg. eexists _, _. rewrite !getVoices_filtered.
  split_and!; [done|done| |apply sublist_filter].
  apply filter_sublist_impl. intros v. by apply substring_of_trans.
Qed.

Lemma getVoices_narrowing_witness :
  ∃ vf vg, getVoices 1%positive (Some "en"%string) sample_world = Some (vf, sample_world)
           ∧ getVoices 1%positive (Some "en-US"%string) sample_world
             = Some (vg, sample_world)
           ∧ vg `sublist_of` vf
           ∧ vf `sublist_of` voices (speechSynthesis sample_world).
Proof.
  apply (getVoices_narrowing 1%positive "en" "en-US" sample_world).
  by exists ""%string, "-US"%string.
Defined.

(** X12. A voice whose language tag is shorter than the filter is never
    returned; a filter longer than every tag of the catalog gives the empty
    sequence. *)
Theorem getVoices_long_filter (this : loc) (f : string) (w : world) :
  ∃ vs, getVoices this (Some f) w = Some (vs, w)
        ∧ (∀ v, v ∈ vs → String.length f ≤ String.length (Voice.lang v))
        ∧ (Forall (λ v, String.length (Voice.lang v) < String.length f)
             (voices (speechSynthesis w)) → vs = []).
Proof.
  eexists. rewrite getVoices_filtered. split_and!; [done| |].
  - intros v [Hv _]%list_elem_of_filter. by apply substring_of_length.
  - intros Hall. apply filter_none.
    eapply Forall_impl; [exact Hall|].
    intros v Hlt Hsub%substring_of_length. simpl in *. lia.
Qed.

Lemma getVoices_long_filter_witness :
  getVoices 1%positive (Some "en-US-x-posix"%string) sample_world
  = Some ([], sample_world).
Proof.
  destruct (getVoices_long_filter 1%positive "en-US-x-posix" sample_world)
    as (vs & Hvs & _ & Hnil).
  rewrite Hvs, Hnil; [reflexivity|].
  repeat constructor.
Defined.


(** * Further properties of the events *)

Lemma voice_calls_app (cs1 cs2 : list invocation) :
  voice_calls (cs1 ++ cs2) = voice_calls cs1 ++ voice_calls cs2.
Proof. apply List.filter_app. Qed.

Lemma perform_voice_calls {pf : Attributes} (a : action) (w w' : world) :
  no_firing [a] = true →
  perform a w = Some (tt, w') →
  voice_calls (calls w') = voice_calls (calls w).
Proof.
  destruct a as [fresh|this s|this f|vs| |k u]; simpl; intros Hnf; [..|done|].
  - by intros [= <-].
  - unfold mbind, M_bind.
    destruct (call this s w) as [[r w1]|] eqn:Hcall; [|done].
    intros [= <-]. by rewrite (proj2 (call_listeners _ _ _ _ _ Hcall)).
  - unfold mbind, M_bind. destruct f as [f|].
    + rewrite getVoices_filtered. by intros [= <-].
    + rewrite getVoices_unfiltered. by intros [= <-].
  - by intros [= <-].
  - unfold raise. destruct (utterances w !! u) as [c|]; [|done].
    destruct (handler_of k c); intros [= <-]; [|done].
    simpl. by rewrite voice_calls_app, app_nil_r.
Qed.

(** X13. The class never calls a [voiceschanged] callback itself: the call
    of [setOnVoicesChanged] calls nothing, whatever the catalog holds, and
    as long as the event does not fire, nothing the caller or the engine
    does passes a voice list to a caller function. *)
Theorem voiceschanged_only_on_firing {pf : Attributes} (this : loc) (cb : funobj)
    (w : world) :
  ∃ w1, setOnVoicesChanged this cb w = Some (this, w1)
        ∧ calls w1 = calls w
        ∧ ∀ acts w2, no_firing acts = true →
            perform_all acts w1 = Some (tt, w2) →
            voice_calls (calls w2) = voice_calls (calls w).
Proof.
  destruct (setOnVoicesChanged_spec this cb w) as (w1 & Hset & _ & _ & _ & _ & Hcs).
  exists w1. split_and!; [done|done|]. rewrite <- Hcs. clear Hset Hcs.
  intros acts. revert w1. induction acts as [|a acts IH]; intros w1 w2 Hnf.
  - by intros [= <-].
  - simpl in *. apply andb_true_iff in Hnf as [Ha Hnf].
    unfold mbind, M_bind.
    destruct (perform a w1) as [[[] w']|] eqn:Hperf; [|done].
    intros Hrest. rewrite (IH w' w2 Hnf Hrest).
    apply (perform_voice_calls a); [|done]. simpl. by rewrite Ha.
Qed.

Lemma voiceschanged_only_on_firing_witness :
  ∃ w1 w2,
    setOnVoicesChanged 1%positive 7%positive sample_world = Some (1%positive, w1)
    ∧ perform_all (pf := browser)
        [ASetVoices [voice_fr]; ACall 1%positive (SetOn EvEnd 9%positive);
                   ARaise EvEnd 1%positive; AGetVoices 1%positive None] w1
      = Some (tt, w2)
    ∧ calls w2 = [Invoke 9%positive (ArgEvent EvEnd 1%positive)]
    ∧ voice_calls (calls w2) = [].
Proof.
  destruct (voiceschanged_only_on_firing (pf := browser) 1%positive 7%positive
              sample_world)
    as (w1 & Hset & _ & Hacts).
  injection Hset as <-.
  eexists _, _. split_and!; [reflexivity | reflexivity | reflexivity |].
  apply (Hacts [ASetVoices [voice_fr]; ACall 1%positive (SetOn EvEnd 9%positive);
                ARaise EvEnd 1%positive; AGetVoices 1%positive None]);
    reflexivity.
Defined.

Lemma handler_of_other_kind (k k' : event_kind) (h : funobj)
    (c : SpeechSynthesisUtterance) :
  k ≠ k' → handler_of k' (with_handler k h c) = handler_of k' c.
Proof. by destruct k, k'. Qed.

(** X14. Registering a handler for one event kind changes nothing for the
    other kinds: an event of another kind calls what it called before, and
    nothing when no handler of its kind was ever set. *)
Theorem other_kinds_unaffected (k k' : event_kind) (this : loc) (h : funobj)
    (w : world) o c :
  instances w !! this = Some o →
  utterances w !! utterance o = Some c →
  k ≠ k' →
  ∃ w1 w2,
    setOn k this h w = Some (this, w1)
    ∧ raise k' (utterance o) w1 = Some (tt, w2)
    ∧ calls w2 = calls w ++
        match handler_of k' c with
        | Some h' => [Invoke h' (ArgEvent k' (utterance o))]
        | None => []
        end.
Proof.
  intros Ho Hc Hk.
  destruct (setOn_spec k this h w o c Ho Hc)
    as (w1 & Hcall & _ & Hu & _ & Hcs).
  assert (utterances w1 !! utterance o = Some (with_handler k h c)) as Hc1
    by (rewrite Hu; apply lookup_insert_eq).
  destruct (raise_spec k' (utterance o) w1 _ Hc1) as (w2 & Hraise & _ & _ & _ & Hcs2).
  exists w1, w2. split_and!; [done|done|].
  by rewrite Hcs2, Hcs, handler_of_other_kind.
Qed.

Lemma other_kinds_unaffected_witness :
  ∃ w1 w2,
    setOnStart 1%positive 7%positive sample_world = Some (1%positive, w1)
    ∧ raise EvEnd 1%positive w1 = Some (tt, w2)
    ∧ calls w2 = [].
Proof.
  apply (other_kinds_unaffected EvStart EvEnd 1%positive 7%positive sample_world
           (mkTextToSpeech 1%positive) sample_utterance eq_refl eq_refl).
  discriminate.
Defined.


(** * The control and status surfaces *)










